(** * developer-primer: the constraint vocabulary and the lazy generator

    Two translation units are embedded here.

    - [Concepts] follows [cpp/concepts/main.cc]: the variable template
      [are_same_v], the concept [Multipliable], the constrained reducers
      [Add] and [Multiply], the [Stub] test type, [Print] and [main].
    - [Coroutines] follows [cpp/coroutines/main.cc]: [promise_type_base],
      [Generator], the producer [counter] and [main].

    Scalar types follow the LP64 data model (8-bit [char], 16-bit [short],
    32-bit [int], 64-bit [long] and [long long]).  An integer value is a [Z]
    together with its type; unsigned arithmetic wraps modulo [2^bits], signed
    overflow is undefined. *)

From stdpp Require Import gmap strings pretty list.
From Stdlib Require Import ZArith Lia.

Local Open Scope Z_scope.

Module Concepts.

(** ** Types of the translation unit *)

(** The integral types ([std::integral]). *)
Inductive ity :=
  | Ibool | Ichar | Ischar | Iuchar | Iwchar_t | Ichar8_t | Ichar16_t | Ichar32_t
  | Ishort | Iushort | Iint | Iuint | Ilong | Iulong | Illong | Iullong.

(** The floating-point types. *)
Inductive fty := Ffloat | Fdouble | Fldouble.

(** [TStub nexcept operatorStar validReturnType] is the class
    [Stub<nexcept, operatorStar, validReturnType>]. *)
Inductive ty :=
  | TInt (t : ity)
  | TFloat (f : fty)
  | TStub (nexcept operatorStar validReturnType : bool).

#[global] Instance ity_eq_dec : EqDecision ity.
Proof. solve_decision. Defined.
#[global] Instance fty_eq_dec : EqDecision fty.
Proof. solve_decision. Defined.
#[global] Instance ty_eq_dec : EqDecision ty.
Proof. solve_decision. Defined.

Definition NoMultiply : ty := TStub true false true.
Definition ValidClass : ty := TStub true true true.
Definition NotNoexcept : ty := TStub false true true.
Definition DifferentReturnType : ty := TStub true true false.

(** ** Built-in arithmetic: widths, promotions, usual arithmetic conversions *)

Definition bits (t : ity) : Z :=
  match t with
  | Ibool => 1
  | Ichar | Ischar | Iuchar | Ichar8_t => 8
  | Ishort | Iushort | Ichar16_t => 16
  | Iint | Iuint | Iwchar_t | Ichar32_t => 32
  | Ilong | Iulong | Illong | Iullong => 64
  end.

Definition is_signed (t : ity) : bool :=
  match t with
  | Ichar | Ischar | Iwchar_t | Ishort | Iint | Ilong | Illong => true
  | _ => false
  end.

Definition min_of (t : ity) : Z :=
  if is_signed t then - 2 ^ (bits t - 1) else 0.

Definition max_of (t : ity) : Z :=
  if is_signed t then 2 ^ (bits t - 1) - 1 else 2 ^ bits t - 1.

Definition in_range (t : ity) (z : Z) : bool :=
  (min_of t <=? z) && (z <=? max_of t).

(** Integral promotion: every type of rank below [int] whose values all fit
    in [int] becomes [int]; [char32_t] becomes [unsigned int]. *)
Definition promote (t : ity) : ity :=
  match t with
  | Ibool | Ichar | Ischar | Iuchar | Iwchar_t | Ichar8_t | Ichar16_t
  | Ishort | Iushort | Iint => Iint
  | Ichar32_t | Iuint => Iuint
  | Ilong => Ilong
  | Iulong => Iulong
  | Illong => Illong
  | Iullong => Iullong
  end.

Definition rank (t : ity) : Z :=
  match t with
  | Ibool => 0
  | Ichar | Ischar | Iuchar | Ichar8_t => 1
  | Ishort | Iushort | Ichar16_t => 2
  | Iint | Iuint | Iwchar_t | Ichar32_t => 3
  | Ilong | Iulong => 4
  | Illong | Iullong => 5
  end.

Definition to_unsigned (t : ity) : ity :=
  match t with
  | Iint => Iuint
  | Ilong => Iulong
  | Illong => Iullong
  | _ => t
  end.

(** The common type of two promoted integral operands. *)
Definition common (a b : ity) : ity :=
  if bool_decide (a = b) then a
  else if bool_decide (is_signed a = is_signed b) then
    (if rank a <? rank b then b else a)
  else
    let u := if is_signed a then b else a in
    let s := if is_signed a then a else b in
    if rank s <=? rank u then u
    else if bits u <? bits s then s
    else to_unsigned s.

Definition fmax (f g : fty) : fty :=
  match f, g with
  | Fldouble, _ | _, Fldouble => Fldouble
  | Fdouble, _ | _, Fdouble => Fdouble
  | Ffloat, Ffloat => Ffloat
  end.

(** Type of a built-in binary arithmetic expression ([*] or [+]). *)
Definition arith_ty (a b : ty) : option ty :=
  match a, b with
  | TInt x, TInt y => Some (TInt (common (promote x) (promote y)))
  | TInt _, TFloat f | TFloat f, TInt _ => Some (TFloat f)
  | TFloat f, TFloat g => Some (TFloat (fmax f g))
  | _, _ => None
  end.

(** [a * b]: the type of the expression, [None] when it is ill-formed.
    [Stub& Stub::operator*(const Stub&) requires(operatorStar && validReturnType)]
    is the only candidate for a class operand. *)
Definition mul_ty (a b : ty) : option ty :=
  match a, b with
  | TStub n o v, _ =>
      if bool_decide (b = TStub n o v) && (o && v) then Some (TStub n o v) else None
  | _, TStub _ _ _ => None
  | _, _ => arith_ty a b
  end.

(** [a + b]: [int Stub::operator+(const Stub&) requires(operatorStar && not
    validReturnType)] is the only candidate for a class operand. *)
Definition add_ty (a b : ty) : option ty :=
  match a, b with
  | TStub n o v, _ =>
      if bool_decide (b = TStub n o v) && (o && negb v) then Some (TInt Iint) else None
  | _, TStub _ _ _ => None
  | _, _ => arith_ty a b
  end.

(** ** Fold expressions and the constraints *)

(** The unary left fold [(... op args)] is [((a1 op a2) op ...) op aN]; over
    an empty pack it is ill-formed for [*] and [+]. *)
Fixpoint fold_ty (op : ty → ty → option ty) (acc : ty) (rest : list ty) : option ty :=
  match rest with
  | [] => Some acc
  | t :: ts =>
      match op acc t with
      | Some r => fold_ty op r ts
      | None => None
      end
  end.

Definition left_fold_ty (op : ty → ty → option ty) (pack : list ty) : option ty :=
  match pack with
  | [] => None
  | t :: ts => fold_ty op t ts
  end.

(** [are_same_v<T, Ts...> = std::conjunction_v<std::is_same<T, Ts>...>]; the
    template needs its first argument, so an empty pack does not satisfy a
    constraint that names it. *)
Definition are_same_v (pack : list ty) : bool :=
  match pack with
  | [] => false
  | t :: ts => forallb (λ u, bool_decide (t = u)) ts
  end.

(** [concept Multipliable = requires(Args... args) { (... * args);
    requires are_same_v<Args...>; requires sizeof...(Args) > 1; }] *)
Definition Multipliable (pack : list ty) : bool :=
  bool_decide (is_Some (left_fold_ty mul_ty pack))
  && are_same_v pack
  && bool_decide (1 < length pack)%nat.

(** [concept Integral = std::integral<T>] *)
Definition Integral (t : ty) : bool :=
  match t with
  | TInt _ => true
  | _ => false
  end.

(** The signature a call [Multiply(args...)] instantiates: the constraint is
    checked first, then the return type is deduced from the body. *)
Definition Multiply_ty (pack : list ty) : option ty :=
  if Multipliable pack then left_fold_ty mul_ty pack else None.

(** ** Values and the run-time meaning of the operators *)

(** Values of the integral types and of the (empty) class [Stub]; values of
    the floating-point types are not represented. *)
Inductive value :=
  | VInt (t : ity) (z : Z)
  | VStub (nexcept operatorStar validReturnType : bool).

Definition type_of (v : value) : ty :=
  match v with
  | VInt t _ => TInt t
  | VStub n o r => TStub n o r
  end.

(** What evaluating an expression gives: a value, a program that is rejected
    when it is compiled, or undefined behaviour when it runs. *)
Inductive res (A : Type) :=
  | Ok (a : A)
  | IllFormed
  | Undefined.
Arguments Ok {A} a.
Arguments IllFormed {A}.
Arguments Undefined {A}.

#[global] Instance res_ret : MRet res := λ A a, Ok a.
#[global] Instance res_bind : MBind res := λ A B f m,
  match m with
  | Ok a => f a
  | IllFormed => IllFormed
  | Undefined => Undefined
  end.

(** Integral conversion to [t]: the value congruent modulo [2^bits] ([bool]
    tests against zero). *)
Definition convert (t : ity) (z : Z) : Z :=
  match t with
  | Ibool => if z =? 0 then 0 else 1
  | _ =>
      if is_signed t
      then (z + 2 ^ (bits t - 1)) `mod` 2 ^ bits t - 2 ^ (bits t - 1)
      else z `mod` 2 ^ bits t
  end.

(** A built-in binary operator on integers: both operands are brought to
    the common type; signed overflow is undefined, unsigned wraps. *)
Definition arith_val (op : Z → Z → Z) (x : ity) (z1 : Z) (y : ity) (z2 : Z) : res value :=
  let c := common (promote x) (promote y) in
  let r := op (convert c z1) (convert c z2) in
  if is_signed c
  then (if in_range c r then Ok (VInt c r) else Undefined)
  else Ok (VInt c (r `mod` 2 ^ bits c)).

(** [a * b]; [Stub::operator*] is [{ return *this; }]. *)
Definition mul_val (a b : value) : res value :=
  match a, b with
  | VInt x z1, VInt y z2 => arith_val Z.mul x z1 y z2
  | VStub n o v, _ =>
      if bool_decide (type_of b = TStub n o v) && (o && v) then Ok a else IllFormed
  | _, _ => IllFormed
  end.

(** [a + b]; [Stub::operator+] is [{ return {}; }] with result type [int]. *)
Definition add_val (a b : value) : res value :=
  match a, b with
  | VInt x z1, VInt y z2 => arith_val Z.add x z1 y z2
  | VStub n o v, _ =>
      if bool_decide (type_of b = TStub n o v) && (o && negb v)
      then Ok (VInt Iint 0) else IllFormed
  | _, _ => IllFormed
  end.

Fixpoint fold_val (op : value → value → res value) (acc : value) (rest : list value)
  : res value :=
  match rest with
  | [] => Ok acc
  | v :: vs => r ← op acc v; fold_val op r vs
  end.

Definition left_fold_val (op : value → value → res value) (args : list value) : res value :=
  match args with
  | [] => IllFormed
  | v :: vs => fold_val op v vs
  end.

(** [template<typename... Args> requires are_same_v<Args...>
    auto Add(Args&&... args) { return (... + args); }] *)
Definition Add (args : list value) : res value :=
  if are_same_v (type_of <$> args) then left_fold_val add_val args else IllFormed.

(** [template<typename... Args> requires Multipliable<Args...>
    auto Multiply(Args&&... args) { return (... * args); }] *)
Definition Multiply (args : list value) : res value :=
  if Multipliable (type_of <$> args) then left_fold_val mul_val args else IllFormed.

(** ** Output *)

Definition endl : string := String (Ascii.ascii_of_N 10) EmptyString.

(** [std::cout << value]: [cout] is the text written so far.  Character types
    write one character, the other integral types their decimal digits; the
    overloads for [wchar_t], [char8_t], [char16_t] and [char32_t] are deleted
    and [Stub] has none. *)
Definition put (cout : string) (v : value) : res string :=
  match v with
  | VInt (Ichar | Ischar | Iuchar) z =>
      Ok (cout +:+ String (Ascii.ascii_of_N (Z.to_N (z `mod` 256))) EmptyString)
  | VInt (Iwchar_t | Ichar8_t | Ichar16_t | Ichar32_t) _ => IllFormed
  | VInt _ z => Ok (cout +:+ pretty z)
  | VStub _ _ _ => IllFormed
  end.

(** [void Print(Integral auto value) { std::cout << value << std::endl; }] *)
Definition Print (cout : string) (v : value) : res string :=
  if Integral (type_of v) then (out ← put cout v; mret (out +:+ endl)) else IllFormed.

(** [main]: the text on standard output when the program returns. *)
Definition main : res string :=
  let cout := EmptyString in
  result ← Add [VInt Iint 1; VInt Iint 2; VInt Iint 3; VInt Iint 4; VInt Iint 5];
  cout ← put cout result;
  let cout := cout +:+ endl in
  m ← Multiply [VInt Iint 2; VInt Iint 3; VInt Iint 4];
  cout ← put cout m;
  let cout := cout +:+ endl in
  Print cout (VInt Iint 14).

(** ** The vocabulary of the specification *)

(** The mathematical product and sum of a list of integers. *)
Definition product (zs : list Z) : Z := foldr Z.mul 1 zs.
Definition sum (zs : list Z) : Z := foldr Z.add 0 zs.

(** Every intermediate result of the left fold of [zs] by [op], started at
    [acc], is a value of the type [c]. *)
Fixpoint fold_fits (op : Z → Z → Z) (c : ity) (acc : Z) (zs : list Z) : bool :=
  match zs with
  | [] => true
  | z :: zs => in_range c (op acc z) && fold_fits op c (op acc z) zs
  end.

Definition left_fold_fits (op : Z → Z → Z) (c : ity) (zs : list Z) : bool :=
  match zs with
  | [] => true
  | z :: zs => fold_fits op c z zs
  end.

(** [Multipliable] as the specification words it, in four clauses: the types
    are identical, there are at least two of them, the reduction by [*] is
    well-formed, and its result type is the operand type. *)
Definition Multipliable_spec (pack : list ty) : bool :=
  are_same_v pack
  && bool_decide (2 ≤ length pack)%nat
  && bool_decide (is_Some (left_fold_ty mul_ty pack))
  && bool_decide (left_fold_ty mul_ty pack = head pack).

End Concepts.

Module Coroutines.

(** ** The coroutine frame *)

(** [std::suspend_always], the one awaiter of the program: a coroutine that
    awaits it is suspended. *)
Inductive suspend_always := SuspendAlways.

(** Where a frame is suspended.  A frame is only ever observed suspended:
    at the initial suspension, at a [co_yield], or at the final suspension. *)
Inductive suspend_point := InitialSuspend | YieldSuspend | FinalSuspend.

#[global] Instance suspend_point_eq_dec : EqDecision suspend_point.
Proof. solve_decision. Defined.

(** Where a resumed body starts running. *)
Inductive entry := FromStart | AfterYield.

(** How a run of the body ends: at [co_yield v] or by flowing off its end. *)
Inductive control (T : Type) :=
  | Yielded (v : T)
  | Returned.
Arguments Yielded {T} v.
Arguments Returned {T}.

(** What running code gives: a result, undefined behaviour, or a bound on
    the number of loop iterations that was too low. *)
Inductive outcome (A : Type) :=
  | Ret (a : A)
  | Undef
  | NoFuel.
Arguments Ret {A} a.
Arguments Undef {A}.
Arguments NoFuel {A}.

Abbreviation addr := nat.

(** The order of the three states of a frame. *)
Definition stage (s : suspend_point) : nat :=
  match s with
  | InitialSuspend => 0
  | YieldSuspend => 1
  | FinalSuspend => 2
  end.

(** The copy and move operations a class declares itself, and what the
    language then provides for initialising an object from another. *)
Record special_members := {
  user_copy_ctor : bool;
  user_move_ctor : bool;
  user_copy_assign : bool;
  user_move_assign : bool;
  user_dtor : bool
}.

Inductive special := UserProvided | Defaulted | Deleted | NotDeclared.

Definition copy_ctor (m : special_members) : special :=
  if user_copy_ctor m then UserProvided
  else if user_move_ctor m || user_move_assign m then Deleted
  else Defaulted.

Definition move_ctor (m : special_members) : special :=
  if user_move_ctor m then UserProvided
  else if user_copy_ctor m || user_copy_assign m || user_move_assign m || user_dtor m
  then NotDeclared
  else Defaulted.

Section Generator.
Context {T L : Type}.

(** [struct promise_type_base { T mValue; ... }].  Its
    [unhandled_exception() { std::terminate(); }] has no counterpart here:
    no code of the program throws. *)
Record promise_type_base := { mValue : T }.

(** [auto yield_value(T value) { mValue = std::move(value);
    return std::suspend_always{}; }] *)
Definition yield_value (p : promise_type_base) (value : T)
  : promise_type_base * suspend_always :=
  ({| mValue := value |}, SuspendAlways).

(** [std::suspend_always initial_suspend() { return {}; }] and
    [std::suspend_always final_suspend() noexcept { return {}; }] *)
Definition initial_suspend (p : promise_type_base) : suspend_always := SuspendAlways.
Definition final_suspend (p : promise_type_base) : suspend_always := SuspendAlways.

(** [void return_void() {}] *)
Definition return_void (p : promise_type_base) : promise_type_base := p.

(** A producer body, cut at its suspension points: from where it is
    resumed it runs to the next [co_yield] or to its end, and may change
    its locals; [None] is undefined behaviour inside the body. *)
Definition producer := entry → L → option (L * control T).

(** The frame: the resume point, the producer's parameters and locals, the
    promise, and the body that a resumption runs. *)
Record frame := {
  point : suspend_point;
  locals : L;
  promise : promise_type_base;
  code : producer
}.

(** One run of the body, up to the next suspension: [co_yield v] awaits
    [yield_value(v)], and flowing off the end calls [return_void] and
    awaits [final_suspend]. *)
Definition run_body (e : entry) (f : frame) : option frame :=
  match code f e (locals f) with
  | None => None
  | Some (l, Yielded v) =>
      let '(p, SuspendAlways) := yield_value (promise f) v in
      Some {| point := YieldSuspend; locals := l; promise := p; code := code f |}
  | Some (l, Returned) =>
      let p := return_void (promise f) in
      let 'SuspendAlways := final_suspend p in
      Some {| point := FinalSuspend; locals := l; promise := p; code := code f |}
  end.

(** [coroutine_handle::resume]: undefined on a frame suspended at its final
    suspension point. *)
Definition resume (f : frame) : option frame :=
  match point f with
  | InitialSuspend => run_body FromStart f
  | YieldSuspend => run_body AfterYield f
  | FinalSuspend => None
  end.

(** The frame of a call of the producer: the promise is default-initialised
    ([dflt] is what that leaves in [mValue]; for [int] it is indeterminate)
    and [initial_suspend] is awaited before the body starts. *)
Definition new_frame (body : producer) (args : L) (dflt : T) : frame :=
  let p := {| mValue := dflt |} in
  let 'SuspendAlways := initial_suspend p in
  {| point := InitialSuspend; locals := args; promise := p; code := body |}.

(** ** The handle *)

(** [struct Generator { PromiseTypeHandle mCoroHdl; ... }]: the handle is
    the address of a frame, or null. *)
Record Generator := { mCoroHdl : option addr }.

(** [explicit Generator(promise_type* p)
      : mCoroHdl{PromiseTypeHandle::from_promise( *p )} {}]: the handle of the
    frame that holds the promise, here the frame at address [p]. *)
Definition Generator_ctor (p : addr) : Generator := {| mCoroHdl := Some p |}.

(** [G get_return_object() { return G{this}; }] *)
Definition get_return_object (p : addr) : Generator := Generator_ctor p.

(** Code that runs on the store of frames. *)
Definition M (A : Type) : Type := gmap addr frame → outcome (A * gmap addr frame).

Definition ret {A} (a : A) : M A := λ h, Ret (a, h).

Definition bind {A B} (m : M A) (k : A → M B) : M B := λ h,
  match m h with
  | Ret (a, h') => k a h'
  | Undef => Undef
  | NoFuel => NoFuel
  end.

Definition undef {A} : M A := λ _, Undef.

(** A use of the handle: null and dangling handles are undefined. *)
Definition deref (g : Generator) : M (addr * frame) := λ h,
  match mCoroHdl g with
  | None => Undef
  | Some p =>
      match h !! p with
      | None => Undef
      | Some f => Ret ((p, f), h)
      end
  end.

(** Calling the producer: the frame is allocated, with the promise in it,
    and the caller is given the result of [get_return_object]. *)
Definition call (body : producer) (args : L) (dflt : T) : M Generator := λ h,
  let p := fresh (dom h) in
  Ret (get_return_object p, <[p := new_frame body args dflt]> h).

(** The frame a handle refers to, if any. *)
Definition frame_of (g : Generator) (h : gmap addr frame) : option frame :=
  mCoroHdl g ≫= λ p, h !! p.

(** [bool done() { return mCoroHdl.done(); }] *)
Definition done (g : Generator) : M bool :=
  bind (deref g) (λ '(_, f), ret (bool_decide (point f = FinalSuspend))).

(** [T next() { mCoroHdl.resume(); return mCoroHdl.promise().mValue; }] *)
Definition next (g : Generator) : M T :=
  bind (deref g) (λ '(p, f),
    match resume f with
    | None => undef
    | Some f' => λ h, Ret (mValue (promise f'), <[p := f']> h)
    end).

(** [coroutine_handle::destroy] *)
Definition destroy (p : addr) : M unit := λ h,
  match h !! p with
  | None => Undef
  | Some _ => Ret ((), delete p h)
  end.

(** [~Generator() { if(mCoroHdl) mCoroHdl.destroy(); }] *)
Definition Generator_dtor (g : Generator) : M unit :=
  match mCoroHdl g with
  | Some p => destroy p
  | None => ret ()
  end.

(** ** Copying and moving the handle *)

(** The class declares a constructor from a promise and its destructor;
    it declares no copy or move operation.  The implicit copy constructor
    is then defaulted (it would be deleted only beside a declared move
    operation) and copies [mCoroHdl]; no move constructor is declared
    beside a declared destructor, so initialising a generator from
    [std::move(src)] selects the copy constructor. *)
Definition Generator_members : special_members :=
  {| user_copy_ctor := false; user_move_ctor := false;
     user_copy_assign := false; user_move_assign := false;
     user_dtor := true |}.

(** [Generator dst = src;]: the new object and the source afterwards;
    [None] when the initialisation does not compile. *)
Definition Generator_copy (src : Generator) : option (Generator * Generator) :=
  match copy_ctor Generator_members with
  | Defaulted => Some ({| mCoroHdl := mCoroHdl src |}, src)
  | _ => None
  end.

(** [Generator dst = std::move(src);] *)
Definition Generator_move (src : Generator) : option (Generator * Generator) :=
  match move_ctor Generator_members with
  | Defaulted => Some ({| mCoroHdl := mCoroHdl src |}, src)
  | NotDeclared => Generator_copy src
  | _ => None
  end.

(** ** The pull loop *)

(** [while (!g.done()) { consume(g.next()); }], with [acc] what the
    consumer has gathered. *)
Fixpoint pull_loop {A} (consume : A → T → A) (fuel : nat) (g : Generator) (acc : A)
  : M A :=
  match fuel with
  | O => λ _, NoFuel
  | S fuel =>
      bind (done g) (λ d,
        if d then ret acc
        else bind (next g) (λ v, pull_loop consume fuel g (consume acc v)))
  end.

(** [n] calls of [next] in a row, with the values they return. *)
Fixpoint nexts (n : nat) (g : Generator) : M (list T) :=
  match n with
  | O => ret []
  | S n => bind (next g) (λ v, bind (nexts n g) (λ vs, ret (v :: vs)))
  end.

(** What a body yields: the operands of the [co_yield]s at which its first
    [n] runs end, the first run entered at [e] with the locals [l], and the
    locals after these runs; [None] when one of the runs returns or is
    undefined.  The promise plays no part in it. *)
Fixpoint yields (body : producer) (e : entry) (l : L) (n : nat) : option (list T * L) :=
  match n with
  | O => Some ([], l)
  | S n =>
      match body e l with
      | Some (l', Yielded v) =>
          match yields body AfterYield l' n with
          | Some (vs, l'') => Some (v :: vs, l'')
          | None => None
          end
      | _ => None
      end
  end.

End Generator.

Arguments promise_type_base : clear implicits.
Arguments frame : clear implicits.
Arguments producer : clear implicits.
Arguments M : clear implicits.

(** ** The producer [counter] *)

Definition INT_MAX : Z := 2 ^ 31 - 1.

(** The parameters of [counter]; [end] is spelled [end_]. *)
Record counter_locals := { start : Z; end_ : Z }.

(** [start++] on an [int]: overflow is undefined. *)
Definition incr (z : Z) : option Z :=
  if z <? INT_MAX then Some (z + 1) else None.

(** [while (start < end) { co_yield start; ...]: from the loop test to the
    next suspension. *)
Definition counter_loop (l : counter_locals) : counter_locals * control Z :=
  if start l <? end_ l then (l, Yielded (start l)) else (l, Returned).

(** [Generator<int> counter(int start, int end) {
      while (start < end) { co_yield start; start++; } }] *)
Definition counter_body : producer Z counter_locals := λ e l,
  match e with
  | FromStart => Some (counter_loop l)
  | AfterYield =>
      match incr (start l) with
      | None => None
      | Some s => Some (counter_loop {| start := s; end_ := end_ l |})
      end
  end.

Definition counter (start end_ : Z) (dflt : Z) : M Z counter_locals Generator :=
  call counter_body {| start := start; end_ := end_ |} dflt.

(** A frame of [counter]: suspended at [pt], with [start = s], [end = e] and
    [v] in the promise. *)
Definition counter_frame (pt : suspend_point) (s e v : Z) : frame Z counter_locals :=
  {| point := pt; locals := {| start := s; end_ := e |};
     promise := {| mValue := v |}; code := counter_body |}.

(** The frame of [counter(a, b)] after [k] calls of [next] that ended at a
    [co_yield]. *)
Definition counter_after (a b dflt : Z) (k : nat) : frame Z counter_locals :=
  match k with
  | O => counter_frame InitialSuspend a b dflt
  | S j => counter_frame YieldSuspend (a + Z.of_nat j) b (a + Z.of_nat j)
  end.

(** [std::cout << v << " "] *)
Definition print (cout : string) (v : Z) : string := cout +:+ pretty v +:+ " ".

(** [int main() { auto g = counter(1, 5);
      while (!g.done()) { std::cout << g.next() << " "; } return 0; }]:
    the exit code and the text on standard output; [g] is destroyed when
    [main] returns. *)
Definition main (fuel : nat) (dflt : Z) : M Z counter_locals (Z * string) :=
  bind (counter 1 5 dflt) (λ g,
  bind (pull_loop print fuel g EmptyString) (λ cout,
  bind (Generator_dtor g) (λ _,
  ret (0, cout)))).

End Coroutines.


(** * Properties of the constraint vocabulary *)

Module ConceptsFacts.
Import Concepts.

(** ** Built-in arithmetic *)

Lemma promote_idemp t : promote (promote t) = promote t.
Proof. by destruct t. Qed.

Lemma common_diag t : common t t = t.
Proof. unfold common. by rewrite bool_decide_eq_true_2. Qed.

Lemma in_range_spec t z : in_range t z = true ↔ min_of t ≤ z ≤ max_of t.
Proof. unfold in_range. rewrite andb_true_iff, !Z.leb_le. tauto. Qed.

Lemma in_range_promote t z : in_range t z = true → in_range (promote t) z = true.
Proof.
  rewrite !in_range_spec.
  destruct t; unfold min_of, max_of; simpl; lia.
Qed.

Lemma convert_in_range t z : in_range t z = true → convert t z = z.
Proof.
  rewrite in_range_spec.
  destruct t; unfold min_of, max_of, convert; simpl; intros Hz;
    try (rewrite Z.mod_small by lia; lia).
  destruct (Z.eqb_spec z 0); lia.
Qed.

Lemma unsigned_range t z :
  is_signed t = false → in_range t (z `mod` 2 ^ bits t) = true.
Proof.
  intros Hs. rewrite in_range_spec. unfold min_of, max_of. rewrite Hs.
  assert (0 < 2 ^ bits t) by (destruct t; simpl; lia).
  pose proof (Z.mod_pos_bound z (2 ^ bits t)). lia.
Qed.

(** ** Folds of a built-in operator over a uniform integral pack *)

Section ArithFold.
Variable op : Z → Z → Z.
Variable f : value → value → res value.
Hypothesis f_int : ∀ x z1 y z2, f (VInt x z1) (VInt y z2) = arith_val op x z1 y z2.
Hypothesis op_mod : ∀ a b m, 0 < m → op (a `mod` m) b `mod` m = op a b `mod` m.

Lemma arith_val_exact x y c z1 z2 :
  promote x = c → promote y = c →
  in_range c z1 = true → in_range c z2 = true → in_range c (op z1 z2) = true →
  arith_val op x z1 y z2 = Ok (VInt c (op z1 z2)).
Proof.
  intros Hx Hy H1 H2 Hr. unfold arith_val.
  rewrite Hx, Hy, common_diag, !convert_in_range by done.
  destruct (is_signed c) eqn:Hs; [by rewrite Hr|].
  apply in_range_spec in Hr. unfold min_of, max_of in Hr. rewrite Hs in Hr.
  by rewrite Z.mod_small by lia.
Qed.

Lemma arith_val_wrap x y c z1 z2 :
  promote x = c → promote y = c → is_signed c = false →
  in_range c z1 = true → in_range c z2 = true →
  arith_val op x z1 y z2 = Ok (VInt c (op z1 z2 `mod` 2 ^ bits c)).
Proof.
  intros Hx Hy Hs H1 H2. unfold arith_val.
  by rewrite Hx, Hy, common_diag, !convert_in_range, Hs by done.
Qed.

Lemma fold_val_exact c t zs :
  promote c = c → promote t = c →
  Forall (λ z, in_range t z = true) zs →
  ∀ a, in_range c a = true → fold_fits op c a zs = true →
  fold_val f (VInt c a) (VInt t <$> zs) = Ok (VInt c (foldl op a zs)).
Proof.
  intros Hc Ht. induction 1 as [|z zs Hz _ IH]; intros a Ha Hfit; [done|].
  simpl in Hfit. apply andb_true_iff in Hfit as [Hr Hfit].
  assert (in_range c z = true) by (rewrite <- Ht; by apply in_range_promote).
  simpl. rewrite f_int, (arith_val_exact c t c) by done.
  by apply IH.
Qed.

Lemma foldl_mod_congr m zs :
  0 < m → ∀ a b, a `mod` m = b `mod` m →
  foldl op a zs `mod` m = foldl op b zs `mod` m.
Proof.
  intros Hm. induction zs as [|z zs IH]; intros a b Hab; [done|].
  simpl. apply IH. by rewrite <- (op_mod a), Hab, op_mod.
Qed.

Lemma fold_val_wrap c t zs :
  promote c = c → promote t = c → is_signed c = false →
  Forall (λ z, in_range t z = true) zs →
  ∀ a, in_range c a = true →
  fold_val f (VInt c a) (VInt t <$> zs)
  = Ok (VInt c (foldl op a zs `mod` 2 ^ bits c)).
Proof.
  intros Hc Ht Hs. induction 1 as [|z zs Hz _ IH]; intros a Ha.
  - simpl. apply in_range_spec in Ha. unfold min_of, max_of in Ha.
    rewrite Hs in Ha. by rewrite Z.mod_small by lia.
  - assert (in_range c z = true) by (rewrite <- Ht; by apply in_range_promote).
    assert (0 < 2 ^ bits c) by (destruct c; simpl; lia).
    simpl. rewrite f_int, (arith_val_wrap c t c) by done.
    change (Ok ?v ≫= ?k) with (k v). cbv beta.
    rewrite IH by (by apply unsigned_range).
    do 2 f_equal. apply foldl_mod_congr; [done|].
    by rewrite Z.mod_mod by lia.
Qed.

(** The fold of a uniform pack of at least two integers of type [t]. *)
Lemma left_fold_val_exact t z1 z2 zs :
  Forall (λ z, in_range t z = true) (z1 :: z2 :: zs) →
  left_fold_fits op (promote t) (z1 :: z2 :: zs) = true →
  left_fold_val f (VInt t <$> z1 :: z2 :: zs)
  = Ok (VInt (promote t) (foldl op z1 (z2 :: zs))).
Proof.
  intros Hall Hfit. inversion_clear Hall as [|? ? H1 Hall'].
  inversion_clear Hall' as [|? ? H2 Hzs].
  simpl in Hfit. apply andb_true_iff in Hfit as [Hr Hfit].
  simpl. rewrite f_int, (arith_val_exact t t (promote t))
    by auto using in_range_promote.
  change (Ok ?v ≫= ?k) with (k v). cbv beta.
  apply fold_val_exact; auto using promote_idemp.
Qed.

Lemma left_fold_val_wrap t z1 z2 zs :
  is_signed (promote t) = false →
  Forall (λ z, in_range t z = true) (z1 :: z2 :: zs) →
  left_fold_val f (VInt t <$> z1 :: z2 :: zs)
  = Ok (VInt (promote t) (foldl op z1 (z2 :: zs) `mod` 2 ^ bits (promote t))).
Proof.
  intros Hs Hall. inversion_clear Hall as [|? ? H1 Hall'].
  inversion_clear Hall' as [|? ? H2 Hzs].
  assert (0 < 2 ^ bits (promote t)) by (destruct t; simpl; lia).
  simpl. rewrite f_int, (arith_val_wrap t t (promote t))
    by auto using in_range_promote.
  change (Ok ?v ≫= ?k) with (k v). cbv beta.
  rewrite (fold_val_wrap (promote t) t)
    by auto using promote_idemp, unsigned_range.
  do 2 f_equal. apply foldl_mod_congr; [done|].
  by rewrite Z.mod_mod by lia.
Qed.
End ArithFold.

Lemma foldl_mul_product a zs : foldl Z.mul a zs = a * product zs.
Proof.
  revert a. induction zs as [|z zs IH]; intros a; simpl; [lia|].
  rewrite IH. unfold product. simpl. lia.
Qed.

Lemma foldl_add_sum a zs : foldl Z.add a zs = a + sum zs.
Proof.
  revert a. induction zs as [|z zs IH]; intros a; simpl; [unfold sum; simpl; lia|].
  rewrite IH. unfold sum. simpl. lia.
Qed.

Lemma mul_mod_l a b m : 0 < m → (a `mod` m * b) `mod` m = (a * b) `mod` m.
Proof. intros. by rewrite Z.mul_mod_idemp_l by lia. Qed.

Lemma add_mod_l a b m : 0 < m → (a `mod` m + b) `mod` m = (a + b) `mod` m.
Proof. intros. by rewrite Z.add_mod_idemp_l by lia. Qed.

(** ** The constraints on a uniform integral pack *)

Lemma fold_ty_mul_int t (zs : list Z) x :
  promote x = promote t →
  is_Some (fold_ty mul_ty (TInt x) (type_of <$> (VInt t <$> zs))).
Proof.
  revert x. induction zs as [|z zs IH]; intros x Hx; [by eexists|].
  simpl. rewrite Hx, common_diag. apply IH, promote_idemp.
Qed.

Lemma are_same_v_int t z (zs : list Z) :
  are_same_v (type_of <$> (VInt t <$> z :: zs)) = true.
Proof.
  simpl. induction zs as [|z' zs IH]; [done|].
  simpl. by rewrite bool_decide_eq_true_2.
Qed.

Lemma Multipliable_int t z1 z2 (zs : list Z) :
  Multipliable (type_of <$> (VInt t <$> z1 :: z2 :: zs)) = true.
Proof.
  unfold Multipliable. rewrite are_same_v_int.
  rewrite !andb_true_iff, !bool_decide_eq_true. split_and!; [|done|simpl; lia].
  apply (fold_ty_mul_int t (z2 :: zs) t eq_refl).
Qed.

(** The three clauses the concept has. *)
Lemma Multipliable_clauses pack :
  Multipliable pack = true ↔
  is_Some (left_fold_ty mul_ty pack) ∧ are_same_v pack = true ∧ (1 < length pack)%nat.
Proof.
  unfold Multipliable. rewrite !andb_true_iff, !bool_decide_eq_true. tauto.
Qed.

Lemma Multipliable_spec_stricter pack :
  Multipliable_spec pack = true → Multipliable pack = true.
Proof.
  unfold Multipliable_spec. rewrite !andb_true_iff, !bool_decide_eq_true.
  intros [[[Hsame Hlen] Hfold] _]. apply Multipliable_clauses. split_and!; [done..|lia].
Qed.

(** ** The operators on values agree with their types *)

Lemma arith_val_type op x z1 y z2 :
  arith_val op x z1 y z2 ≠ IllFormed
  ∧ ∀ v, arith_val op x z1 y z2 = Ok v → type_of v = TInt (common (promote x) (promote y)).
Proof.
  unfold arith_val. repeat case_match; split; try done; by intros v [= <-].
Qed.

Lemma mul_val_ill_formed a b :
  mul_val a b = IllFormed ↔ mul_ty (type_of a) (type_of b) = None.
Proof.
  destruct a as [x z1|n o v], b as [y z2|n' o' v']; simpl; try done.
  - split; [|done]. intros H. by destruct (arith_val_type Z.mul x z1 y z2).
  - by case_match.
Qed.

Lemma mul_val_type a b v :
  mul_val a b = Ok v → mul_ty (type_of a) (type_of b) = Some (type_of v).
Proof.
  destruct a as [x z1|n o r], b as [y z2|n' o' r']; simpl; try done.
  - intros H. by rewrite (proj2 (arith_val_type Z.mul x z1 y z2) v H).
  - case_match; [|done]. by intros [= <-].
Qed.

Lemma fold_val_well_formed rest :
  ∀ acc, is_Some (fold_ty mul_ty (type_of acc) (type_of <$> rest)) →
  fold_val mul_val acc rest ≠ IllFormed.
Proof.
  induction rest as [|v vs IH]; intros acc Hty; [done|].
  simpl in *. destruct (mul_val acc v) as [r| |] eqn:Hv; simpl; [| |done].
  - apply IH. by rewrite (mul_val_type _ _ _ Hv) in Hty.
  - apply mul_val_ill_formed in Hv. rewrite Hv in Hty. by destruct Hty.
Qed.

Lemma Multiply_ill_formed args :
  Multiply args = IllFormed ↔ Multipliable (type_of <$> args) = false.
Proof.
  unfold Multiply. destruct (Multipliable _) eqn:HM; [|done].
  split; [|done]. intros H. exfalso.
  apply Multipliable_clauses in HM as (Hty & _ & _).
  destruct args as [|a args]; [by destruct Hty|].
  by apply (fold_val_well_formed args a).
Qed.

(** ** The left fold, one argument at a time *)

Lemma fold_val_snoc op acc xs x :
  fold_val op acc (xs ++ [x]) = fold_val op acc xs ≫= λ s, op s x.
Proof.
  revert acc. induction xs as [|y ys IH]; intros acc; simpl.
  - by destruct (op acc x).
  - destruct (op acc y); simpl; [apply IH|done..].
Qed.

Lemma are_same_v_snoc pack t :
  pack ≠ [] → are_same_v (pack ++ [t]) = true → are_same_v pack = true.
Proof.
  destruct pack as [|u pack]; [done|]. intros _. simpl.
  rewrite forallb_app, andb_true_iff. tauto.
Qed.

(** ** The claims about the constraint vocabulary *)

(** C2.  The concept has no clause on the result type of the fold: two
    operands of type [short] satisfy [Multipliable] although [short * short]
    has type [int], so the predicate of the code and the four-clause
    predicate of the specification differ there.  The stub that is meant to
    exercise that clause declares [operator+], not [operator*], and is
    rejected because [*] is ill-formed on it. *)
Theorem Multipliable_has_no_result_type_clause :
  Multipliable [TInt Ishort; TInt Ishort] = true
  ∧ left_fold_ty mul_ty [TInt Ishort; TInt Ishort] = Some (TInt Iint)
  ∧ Multipliable_spec [TInt Ishort; TInt Ishort] = false
  ∧ mul_ty DifferentReturnType DifferentReturnType = None
  ∧ add_ty DifferentReturnType DifferentReturnType = Some (TInt Iint).
Proof. by split_and!. Qed.

(** C6, as stated, fails: [Multiply(65536u, 65536u)] is [0u], not the
    product [4294967296] of its arguments. *)
Lemma Multiply_wraps_unsigned :
  Multiply [VInt Iuint 65536; VInt Iuint 65536] = Ok (VInt Iuint 0)
  ∧ product [65536; 65536] = 4294967296
  ∧ ¬ (∀ t zs, (2 ≤ length zs)%nat → Forall (λ z, in_range t z = true) zs →
         Multipliable (type_of <$> (VInt t <$> zs)) = true
         ∧ ∃ c, Multiply (VInt t <$> zs) = Ok (VInt c (product zs))).
Proof.
  split_and!; [done..|]. intros H.
  destruct (H Iuint [65536; 65536]) as [_ [c Hc]]; [simpl; lia|by repeat constructor|].
  by vm_compute in Hc.
Qed.

(** C6, amended.  A uniform pack of two or more values of an integral type
    satisfies [Multipliable]; [Multiply] returns their mathematical product
    when every intermediate product of the left fold is a value of the
    promoted operand type, and the product modulo [2^bits] when that type is
    unsigned. *)
Theorem Multiply_integral_pack t z1 z2 zs :
  Forall (λ z, in_range t z = true) (z1 :: z2 :: zs) →
  Multipliable (type_of <$> (VInt t <$> z1 :: z2 :: zs)) = true
  ∧ (left_fold_fits Z.mul (promote t) (z1 :: z2 :: zs) = true →
     Multiply (VInt t <$> z1 :: z2 :: zs)
     = Ok (VInt (promote t) (product (z1 :: z2 :: zs))))
  ∧ (is_signed (promote t) = false →
     Multiply (VInt t <$> z1 :: z2 :: zs)
     = Ok (VInt (promote t) (product (z1 :: z2 :: zs) `mod` 2 ^ bits (promote t)))).
Proof.
  intros Hall. pose proof (Multipliable_int t z1 z2 zs) as HM.
  assert (product (z1 :: z2 :: zs) = foldl Z.mul z1 (z2 :: zs)) as ->
    by (rewrite foldl_mul_product; done).
  split_and!; [done|intros Hfit|intros Hs]; unfold Multiply; rewrite HM.
  - by apply (left_fold_val_exact Z.mul mul_val).
  - by apply (left_fold_val_wrap Z.mul mul_val); auto using mul_mod_l.
Qed.

Lemma Multiply_integral_pack_witness :
  Multiply [VInt Iint 2; VInt Iint 3; VInt Iint 4] = Ok (VInt Iint 24).
Proof.
  refine (proj1 (proj2 (Multiply_integral_pack Iint 2 3 [4] _)) _).
  - repeat (apply Forall_cons_2; [reflexivity|]). apply Forall_nil_2.
  - reflexivity.
Defined.

(** C7.  A call of [Multiply] is rejected when it is compiled exactly when
    the argument types do not satisfy [Multipliable]: no signature is
    instantiated, and evaluating the call gives no run-time outcome.
    [Multipliable<int, int>] holds; [Multipliable<int, double>] and
    [Multipliable<int>] do not. *)
Theorem Multiply_rejected_iff_not_Multipliable (args : list value) (pack : list ty) :
  (Multiply args = IllFormed ↔ Multipliable (type_of <$> args) = false)
  ∧ (Multiply_ty pack = None ↔ Multipliable pack = false)
  ∧ Multipliable [TInt Iint; TInt Iint] = true
  ∧ Multipliable [TInt Iint; TFloat Fdouble] = false
  ∧ Multipliable [TInt Iint] = false.
Proof.
  split_and!; [apply Multiply_ill_formed| |done..].
  unfold Multiply_ty. destruct (Multipliable pack) eqn:HM; [|done].
  apply Multipliable_clauses in HM as ([r Hr] & _ & _). by rewrite Hr.
Qed.

(** C8.  The four stub configurations under [Multipliable], on two operands
    of the stub type: without [*] false; with a non-throwing [*] true; with a
    possibly-throwing [*] true; with the operator that returns [int]
    false. *)
Theorem stub_matrix :
  Multipliable [NoMultiply; NoMultiply] = false
  ∧ Multipliable [ValidClass; ValidClass] = true
  ∧ Multipliable [NotNoexcept; NotNoexcept] = true
  ∧ Multipliable [DifferentReturnType; DifferentReturnType] = false.
Proof. by split_and!. Qed.

(** C9.  [Add] of one argument is that argument, and [Add] of a uniform
    pack with one more argument [x] is [Add] of the pack, plus [x]: the
    left-fold sum.  [main] writes [15], [24] and [14], each on its own
    line. *)
Theorem Add_left_fold_sum (xs : list value) (x : value) :
  xs ≠ [] →
  are_same_v (type_of <$> xs ++ [x]) = true →
  Add [x] = Ok x
  ∧ Add (xs ++ [x]) = (Add xs ≫= λ s, add_val s x)
  ∧ main = Ok ("15" +:+ endl +:+ "24" +:+ endl +:+ "14" +:+ endl).
Proof.
  intros Hxs Hsame. split_and!; [done| |done].
  unfold Add. rewrite Hsame. rewrite fmap_app in Hsame.
  apply are_same_v_snoc in Hsame; [|by destruct xs]. rewrite Hsame.
  destruct xs as [|y ys]; [done|]. apply fold_val_snoc.
Qed.

Lemma Add_left_fold_sum_witness :
  Add [VInt Iint 1; VInt Iint 2; VInt Iint 3; VInt Iint 4; VInt Iint 5]
  = (Add [VInt Iint 1; VInt Iint 2; VInt Iint 3; VInt Iint 4] ≫= λ s, add_val s (VInt Iint 5)).
Proof.
  apply (Add_left_fold_sum
           [VInt Iint 1; VInt Iint 2; VInt Iint 3; VInt Iint 4] (VInt Iint 5));
    done.
Defined.

(** On a uniform pack of integers [Add] returns the mathematical sum, under
    the same condition on the intermediate sums. *)
Lemma Add_integral_pack t z1 z2 zs :
  Forall (λ z, in_range t z = true) (z1 :: z2 :: zs) →
  left_fold_fits Z.add (promote t) (z1 :: z2 :: zs) = true →
  Add (VInt t <$> z1 :: z2 :: zs) = Ok (VInt (promote t) (sum (z1 :: z2 :: zs))).
Proof.
  intros Hall Hfit. unfold Add. rewrite are_same_v_int.
  assert (sum (z1 :: z2 :: zs) = foldl Z.add z1 (z2 :: zs)) as ->
    by (rewrite foldl_add_sum; done).
  by apply (left_fold_val_exact Z.add add_val).
Qed.

Lemma Add_integral_pack_witness :
  Add [VInt Iint 1; VInt Iint 2; VInt Iint 3; VInt Iint 4; VInt Iint 5]
  = Ok (VInt Iint 15).
Proof.
  refine (Add_integral_pack Iint 1 2 [3; 4; 5] _ _).
  - repeat (apply Forall_cons_2; [reflexivity|]). apply Forall_nil_2.
  - reflexivity.
Defined.

(** ** Uniform packs *)

Lemma are_same_v_replicate (t : ty) n : are_same_v (replicate (S n) t) = true.
Proof.
  simpl. induction n as [|n IH]; [done|].
  simpl. by rewrite bool_decide_eq_true_2.
Qed.

Lemma are_same_v_inv pack :
  are_same_v pack = true → ∃ t n, pack = replicate (S n) t.
Proof.
  destruct pack as [|t ts]; [done|]. simpl. intros Hall.
  exists t, (length ts). simpl. f_equal. symmetry.
  apply replicate_as_Forall. split; [done|].
  rewrite forallb_forall in Hall.
  apply Forall_forall. intros u Hu%list_elem_of_In.
  by apply (bool_decide_eq_true_1 (t = u)), Hall.
Qed.

(** [are_same_v] holds exactly on the packs that repeat one type, at least
    once. *)
Theorem are_same_v_uniform pack :
  are_same_v pack = true ↔ ∃ t n, pack = replicate (S n) t.
Proof.
  split; [apply are_same_v_inv|]. intros (t & n & ->). apply are_same_v_replicate.
Qed.

(** A call of [Add] or of [Multiply] with arguments of two different types
    is rejected. *)
Theorem mixed_pack_rejected (args : list value) (a b : value) :
  a ∈ args → b ∈ args → type_of a ≠ type_of b →
  Add args = IllFormed ∧ Multiply args = IllFormed.
Proof.
  intros Ha Hb Hne.
  assert (are_same_v (type_of <$> args) = false) as Hsame.
  { destruct (are_same_v _) eqn:Hs; [|done]. exfalso.
    apply are_same_v_inv in Hs as (t & n & Hs).
    apply (list_elem_of_fmap_2 type_of) in Ha, Hb. rewrite Hs in Ha, Hb.
    apply elem_of_replicate_inv in Ha, Hb. congruence. }
  split; [unfold Add; by rewrite Hsame|].
  apply Multiply_ill_formed. unfold Multipliable. rewrite Hsame.
  by rewrite andb_false_r.
Qed.

Lemma mixed_pack_rejected_witness :
  Add [VInt Iint 1; VInt Ilong 2] = IllFormed
  ∧ Multiply [VInt Iint 1; VInt Ilong 2] = IllFormed.
Proof.
  apply (mixed_pack_rejected [VInt Iint 1; VInt Ilong 2] (VInt Iint 1) (VInt Ilong 2)).
  - apply list_elem_of_here.
  - apply list_elem_of_further, list_elem_of_here.
  - discriminate.
Defined.

(** ** The stub, in every configuration *)

Lemma fold_ty_mul_Stub ne o v n :
  fold_ty mul_ty (TStub ne o v) (replicate n (TStub ne o v))
  = if bool_decide (n = 0%nat) || (o && v) then Some (TStub ne o v) else None.
Proof.
  induction n as [|n IH]; [done|]. simpl.
  rewrite bool_decide_eq_true_2 by done. simpl.
  destruct (o && v) eqn:Hov; [|done]. rewrite IH. by rewrite orb_true_r.
Qed.

(** On a pack of [n] operands of one stub type [Multipliable] holds exactly
    when [n] is at least two and the stub has [operatorStar] and
    [validReturnType]; [nexcept] plays no part. *)
Theorem Multipliable_Stub ne o v n :
  Multipliable (replicate n (TStub ne o v)) = bool_decide (2 ≤ n)%nat && (o && v).
Proof.
  destruct n as [|[|n]]; [done| |].
  - by vm_compute.
  - unfold Multipliable. rewrite (are_same_v_replicate _ (S n)). simpl.
    rewrite (bool_decide_eq_true_2 (TStub ne o v = TStub ne o v)) by done. simpl.
    rewrite !andb_true_r.
    destruct (o && v) eqn:Hov; simpl; [|done].
    rewrite fold_ty_mul_Stub, Hov, orb_true_r.
    by apply bool_decide_eq_true_2.
Qed.

(** [Add] on [n] stubs of one type: one stub is returned as it is; two stubs
    give [int{}] when the stub has [operator+] (it has [operatorStar] and not
    [validReturnType]); every other call is rejected, three stubs or more
    because [int + Stub] is ill-formed. *)
Theorem Add_Stub ne o v n :
  Add (replicate n (VStub ne o v))
  = match n with
    | 1%nat => Ok (VStub ne o v)
    | 2%nat => if o && negb v then Ok (VInt Iint 0) else IllFormed
    | _ => IllFormed
    end.
Proof.
  destruct n as [|[|[|n]]]; [done|done| |].
  - unfold Add. simpl. rewrite !bool_decide_eq_true_2 by done. simpl.
    by destruct (o && negb v).
  - unfold Add. rewrite fmap_replicate, (are_same_v_replicate _ (S (S n))). simpl.
    rewrite !bool_decide_eq_true_2 by done. simpl.
    by destruct (o && negb v).
Qed.

(** ** The value of [Multiply] has the type of its signature *)

Lemma fold_val_mul_type rest :
  ∀ acc v, fold_val mul_val acc rest = Ok v →
  fold_ty mul_ty (type_of acc) (type_of <$> rest) = Some (type_of v).
Proof.
  induction rest as [|x xs IH]; intros acc v; simpl; [by intros [= ->]|].
  destruct (mul_val acc x) as [r| |] eqn:Hx; simpl; [|done..].
  rewrite (mul_val_type _ _ _ Hx). apply IH.
Qed.

(** When [Multiply] returns a value, the call is admitted and the value has
    the return type deduced for the call. *)
Theorem Multiply_result_type args v :
  Multiply args = Ok v →
  Multipliable (type_of <$> args) = true
  ∧ Multiply_ty (type_of <$> args) = Some (type_of v).
Proof.
  unfold Multiply, Multiply_ty. destruct (Multipliable _); [|done].
  intros Hv. split; [done|].
  destruct args as [|a args]; [done|]. by apply fold_val_mul_type.
Qed.

Lemma Multiply_result_type_witness :
  Multiply_ty [TInt Ishort; TInt Ishort; TInt Ishort] = Some (TInt Iint).
Proof.
  refine (proj2 (Multiply_result_type
    [VInt Ishort 2; VInt Ishort 3; VInt Ishort 4] (VInt Iint 24) _)).
  reflexivity.
Defined.

(** ** Printing what [Multiply] returns *)

Lemma fold_ty_mul_promoted t (zs : list Z) :
  fold_ty mul_ty (TInt (promote t)) (type_of <$> (VInt t <$> zs))
  = Some (TInt (promote t)).
Proof.
  induction zs as [|z zs IH]; [done|].
  simpl. by rewrite promote_idemp, common_diag.
Qed.

(** The value of [Multiply] on a uniform pack of integers has the promoted
    operand type, so [Print] writes its decimal digits and a newline, also
    when the operands are characters. *)
Theorem Print_Multiply t z1 z2 zs v cout :
  Multiply (VInt t <$> z1 :: z2 :: zs) = Ok v →
  ∃ z, v = VInt (promote t) z ∧ Print cout v = Ok ((cout +:+ pretty z) +:+ endl).
Proof.
  unfold Multiply. rewrite Multipliable_int. intros Hv.
  change (fold_val mul_val (VInt t z1) (VInt t <$> z2 :: zs) = Ok v) in Hv.
  apply fold_val_mul_type in Hv. simpl in Hv.
  rewrite common_diag, fold_ty_mul_promoted in Hv.
  destruct v as [c z|]; [|done]. injection Hv as <-.
  exists z. split; [done|]. destruct t; reflexivity.
Qed.

Lemma Print_Multiply_witness :
  ∃ z, VInt Iint 9506 = VInt (promote Ichar) z
       ∧ Print "" (VInt Iint 9506) = Ok (("" +:+ pretty z) +:+ endl).
Proof.
  apply (Print_Multiply Ichar 97 98 [] (VInt Iint 9506) ""). reflexivity.
Defined.

End ConceptsFacts.

(** * Properties of the generator *)

Module CoroutinesFacts.
Import Coroutines.

Section GeneratorFacts.
Context {T L : Type}.
Implicit Types (h : gmap addr (frame T L)) (f : frame T L) (g : Generator).
Implicit Types (body : producer T L).

(** ** The operations, at a live frame *)

Lemma frame_of_Some g h f :
  frame_of g h = Some f ↔ ∃ p, mCoroHdl g = Some p ∧ h !! p = Some f.
Proof.
  unfold frame_of. destruct (mCoroHdl g) as [p|]; simpl.
  - split; [by exists p|]. by intros (? & [= <-] & ?).
  - split; [done|]. by intros (? & ? & ?).
Qed.

Lemma frame_of_insert g h p f :
  mCoroHdl g = Some p → frame_of g (<[p := f]> h) = Some f.
Proof. intros Hg. unfold frame_of. rewrite Hg. simpl. apply lookup_insert_eq. Qed.

Lemma done_at g h f :
  frame_of g h = Some f →
  done g h = Ret (bool_decide (point f = FinalSuspend), h).
Proof.
  intros (p & Hg & Hp)%frame_of_Some. unfold done, bind, deref.
  by rewrite Hg, Hp.
Qed.

Lemma next_at g h p f f' :
  mCoroHdl g = Some p → h !! p = Some f → resume f = Some f' →
  next g h = Ret (mValue (promise f'), <[p := f']> h).
Proof.
  intros Hg Hp Hr. unfold next, bind, deref. by rewrite Hg, Hp, Hr.
Qed.

Lemma next_at_final g h f :
  frame_of g h = Some f → resume f = None → next g h = Undef.
Proof.
  intros (p & Hg & Hp)%frame_of_Some Hr. unfold next, bind, deref.
  by rewrite Hg, Hp, Hr.
Qed.

Lemma next_inv g h v h' :
  next g h = Ret (v, h') →
  ∃ p f f', mCoroHdl g = Some p ∧ h !! p = Some f ∧ resume f = Some f'
            ∧ v = mValue (promise f') ∧ h' = <[p := f']> h.
Proof.
  unfold next, bind, deref. destruct (mCoroHdl g) as [p|]; [|done].
  destruct (h !! p) as [f|] eqn:Hp; [|done].
  destruct (resume f) as [f'|] eqn:Hr; [|done].
  intros [= <- <-]. by exists p, f, f'.
Qed.

(** ** One resumption *)

Lemma resume_inv f f' :
  resume f = Some f' →
  point f ≠ FinalSuspend
  ∧ code f' = code f
  ∧ (point f' = YieldSuspend
     ∨ point f' = FinalSuspend ∧ promise f' = promise f).
Proof.
  unfold resume, run_body.
  destruct (point f); [| |done];
    (destruct (code f _ _) as [[l [v|]]|]; [| |done]); simpl;
    intros [= <-]; simpl; auto.
Qed.

Lemma resume_stage f f' :
  resume f = Some f' → (stage (point f) ≤ stage (point f'))%nat.
Proof.
  intros Hr. destruct (resume_inv _ _ Hr) as (Hf & _ & [Hy|[Hy _]]); rewrite Hy;
    destruct (point f); simpl; done || lia.
Qed.

Lemma resume_returned f e l :
  point f = InitialSuspend ∧ e = FromStart ∨ point f = YieldSuspend ∧ e = AfterYield →
  code f e (locals f) = Some (l, Returned) →
  resume f = Some {| point := FinalSuspend; locals := l; promise := promise f;
                     code := code f |}.
Proof.
  unfold resume, run_body. by intros [[-> ->]|[-> ->]] ->.
Qed.

(** ** Creation *)

Lemma call_inv body args dflt h g h0 :
  call body args dflt h = Ret (g, h0) →
  ∃ p, mCoroHdl g = Some p ∧ h !! p = None
       ∧ h0 = <[p := {| point := InitialSuspend; locals := args;
                        promise := {| mValue := dflt |}; code := body |}]> h.
Proof.
  unfold call. intros [= <- <-]. eexists. split_and!; [done| |done].
  apply not_elem_of_dom, is_fresh.
Qed.

(** ** Any number of calls of [next] *)

Lemma nexts_at n : ∀ g h p f vs h',
  mCoroHdl g = Some p → h !! p = Some f →
  nexts n g h = Ret (vs, h') →
  ∃ f', h' = <[p := f']> h
        ∧ code f' = code f
        ∧ (stage (point f) ≤ stage (point f'))%nat
        ∧ mValue (promise f') = default (mValue (promise f)) (last vs)
        ∧ length vs = n
        ∧ (n ≠ 0%nat → point f ≠ FinalSuspend ∧ point f' ≠ InitialSuspend).
Proof.
  induction n as [|n IH]; intros g h p f vs h' Hg Hp; simpl.
  - intros [= <- <-]. exists f. by rewrite insert_id.
  - unfold bind at 1. destruct (next g h) as [[v h1]| |] eqn:Hn; [|done..].
    apply next_inv in Hn as (p' & f0 & f1 & Hg' & Hp' & Hr & -> & ->).
    assert (p' = p) as -> by congruence. assert (f0 = f) as -> by congruence.
    unfold bind, ret.
    destruct (nexts n g _) as [[ws h2]| |] eqn:Hns; [|done..].
    intros [= <- <-].
    destruct (IH g _ p f1 ws h2 Hg (lookup_insert_eq _ _ _) Hns)
      as (f' & -> & Hcode & Hst & Hval & Hlen & Hpt).
    destruct (resume_inv _ _ Hr) as (Hf & Hcode1 & Hf1).
    exists f'. rewrite insert_insert_eq.
    split_and!; [done|congruence| | |by rewrite <- Hlen|].
    + pose proof (resume_stage _ _ Hr). lia.
    + rewrite Hval. by destruct ws as [|w ws] using rev_ind;
        [|rewrite app_comm_cons, !last_snoc].
    + intros _. split; [done|].
      intros Hi. rewrite Hi in Hst. simpl in Hst.
      destruct Hf1 as [Hf1|[Hf1 _]]; rewrite Hf1 in Hst; simpl in Hst; lia.
Qed.

(** ** A resumption that reaches the end of the body *)

Lemma next_returned g h f l :
  frame_of g h = Some f →
  (point f = InitialSuspend ∧ code f FromStart (locals f) = Some (l, Returned))
  ∨ (point f = YieldSuspend ∧ code f AfterYield (locals f) = Some (l, Returned)) →
  ∃ h2, next g h = Ret (mValue (promise f), h2)
      ∧ done g h2 = Ret (true, h2)
      ∧ frame_of g h2 = Some {| point := FinalSuspend; locals := l;
                                promise := promise f; code := code f |}
      ∧ ∀ m ws h3, nexts m g h2 = Ret (ws, h3) → m = 0%nat ∧ h3 = h2.
Proof.
  intros Hf Hret. pose proof Hf as (p & Hg & Hp)%frame_of_Some.
  set (f2 := {| point := FinalSuspend; locals := l; promise := promise f;
                code := code f |}).
  assert (resume f = Some f2) as Hr.
  { destruct Hret as [[? ?]|[? ?]]; eapply resume_returned; eauto. }
  exists (<[p := f2]> h).
  assert (frame_of g (<[p := f2]> h) = Some f2) as H2 by by apply frame_of_insert.
  split_and!.
  - by rewrite (next_at g _ p f f2 Hg Hp Hr).
  - by rewrite (done_at _ _ _ H2).
  - done.
  - intros [|m] ws h3; simpl; [by intros [= _ <-]|].
    unfold bind at 1. by rewrite (next_at_final _ _ _ H2).
Qed.

(** ** The claims about the handle *)

(** C5.  A generator is created suspended at its initial suspension, with
    [done()] false, its parameters as passed and the promise as
    initialised, whatever the body is.  A call of [next] is defined only
    before the final suspension and leaves the frame at a [co_yield] or at
    the final suspension; over any number of calls the state never moves
    backwards, and once [done()] is true it stays true. *)
Theorem generator_state_machine body args dflt h n g h0 vs h1 :
  call body args dflt h = Ret (g, h0) →
  nexts n g h0 = Ret (vs, h1) →
  frame_of g h0 = Some {| point := InitialSuspend; locals := args;
                          promise := {| mValue := dflt |}; code := body |}
  ∧ done g h0 = Ret (false, h0)
  ∧ ∃ f, frame_of g h1 = Some f
      ∧ (n ≠ 0%nat → point f ≠ InitialSuspend)
      ∧ (∀ v h2, next g h1 = Ret (v, h2) →
           point f ≠ FinalSuspend
           ∧ ∃ f2, frame_of g h2 = Some f2
               ∧ (point f2 = YieldSuspend ∨ point f2 = FinalSuspend))
      ∧ (∀ m ws h2, nexts m g h1 = Ret (ws, h2) →
           ∃ f2, frame_of g h2 = Some f2
               ∧ (stage (point f) ≤ stage (point f2))%nat
               ∧ (done g h1 = Ret (true, h1) → done g h2 = Ret (true, h2))).
Proof.
  intros (p & Hg & Hfresh & ->)%call_inv Hn.
  set (f0 := {| point := InitialSuspend |}) in *.
  assert (frame_of g (<[p := f0]> h) = Some f0) as H0 by by apply frame_of_insert.
  split_and!; [done|by rewrite (done_at _ _ _ H0)|].
  destruct (nexts_at n g _ p f0 vs h1 Hg (lookup_insert_eq _ _ _) Hn)
    as (f & -> & _ & _ & _ & _ & Hpt).
  rewrite insert_insert_eq. exists f.
  assert (frame_of g (<[p := f]> h) = Some f) as H1 by by apply frame_of_insert.
  split_and!; [done|intros Hn0; by destruct (Hpt Hn0)| |].
  - intros v h2 (p' & f' & f2 & Hg' & Hp' & Hr & _ & ->)%next_inv.
    assert (p' = p) as -> by congruence.
    rewrite lookup_insert_eq in Hp'. injection Hp' as <-.
    destruct (resume_inv _ _ Hr) as (Hf & _ & Hf2). split; [done|].
    exists f2. split; [by apply frame_of_insert|tauto].
  - intros m ws h2 Hm.
    destruct (nexts_at m g _ p f ws h2 Hg (lookup_insert_eq _ _ _) Hm)
      as (f2 & -> & _ & Hst & _).
    rewrite insert_insert_eq. exists f2.
    assert (frame_of g (<[p := f2]> h) = Some f2) as H2 by by apply frame_of_insert.
    split_and!; [done..|].
    rewrite (done_at _ _ _ H1), (done_at _ _ _ H2). intros [= Hd].
    apply bool_decide_eq_true in Hd. rewrite Hd in Hst.
    destruct (point f2); simpl in Hst; try lia. done.
Qed.

(** A resumption that ends at a [co_yield]: the body yielded what the
    promise holds afterwards. *)
Lemma resume_yielded f f' :
  resume f = Some f' → point f' = YieldSuspend →
  ∃ e, (point f = InitialSuspend ∧ e = FromStart
        ∨ point f = YieldSuspend ∧ e = AfterYield)
     ∧ code f e (locals f) = Some (locals f', Yielded (mValue (promise f'))).
Proof.
  unfold resume, run_body.
  destruct (point f) eqn:Hpt; [| |done];
    (destruct (code f _ _) as [[l [v|]]|] eqn:Hb; [| |done]); simpl;
    intros [= <-]; simpl; try done; intros _; eauto.
Qed.

(** The values of [n] calls of [next] that leave the frame before its final
    suspension are the values the body yielded. *)
Lemma nexts_yields n : ∀ g h p f e vs h' f',
  mCoroHdl g = Some p → h !! p = Some f →
  point f = InitialSuspend ∧ e = FromStart ∨ point f = YieldSuspend ∧ e = AfterYield →
  nexts n g h = Ret (vs, h') → h' !! p = Some f' → point f' ≠ FinalSuspend →
  yields (code f) e (locals f) n = Some (vs, locals f').
Proof.
  induction n as [|n IH]; intros g h p f e vs h' f' Hg Hp He; simpl.
  - intros [= <- <-] Hp' _. by assert (f' = f) as -> by congruence.
  - unfold bind at 1. destruct (next g h) as [[v h1]| |] eqn:Hn; [|done..].
    apply next_inv in Hn as (p' & f0 & f1 & Hg' & Hp0 & Hr & -> & ->).
    assert (p' = p) as -> by congruence. assert (f0 = f) as -> by congruence.
    unfold bind, ret.
    destruct (nexts n g _) as [[ws h2]| |] eqn:Hns; [|done..].
    intros [= <- <-] Hp' Hnf.
    destruct (nexts_at n g _ p f1 ws h2 Hg (lookup_insert_eq _ _ _) Hns)
      as (f'' & Hh2 & _ & Hst & _).
    assert (f'' = f') as ->.
    { rewrite Hh2, lookup_insert_eq in Hp'. congruence. }
    destruct (resume_inv _ _ Hr) as (_ & Hcode & [Hy|[Hy _]]).
    + destruct (resume_yielded _ _ Hr Hy) as (e' & He' & Hb).
      assert (e' = e) as -> by (destruct He as [[? ->]|[? ->]],
        He' as [[? ->]|[? ->]]; congruence).
      rewrite Hb, <- Hcode.
      by rewrite (IH g _ p f1 AfterYield ws h2 f' Hg (lookup_insert_eq _ _ _)
                    (or_intror (conj Hy eq_refl)) Hns Hp' Hnf).
    + rewrite Hy in Hst. destruct (point f'); simpl in Hst; done || lia.
Qed.

(** C10.  When [next] is called on a frame whose body then returns
    without another [co_yield]: [done()] was false before the call; the
    earlier calls of [next] returned exactly the values the body yielded;
    the frame goes to its final suspension and [done()] is true afterwards;
    and the call returns what the promise held before it, which is the value
    of the last [co_yield] of the body, or the initial content of the promise
    when the body had yielded nothing.  The promise is not changed by the
    call, and no later call of [next] is defined. *)
Theorem next_without_yield_returns_stored body args dflt h n g h0 vs h1 f l :
  call body args dflt h = Ret (g, h0) →
  nexts n g h0 = Ret (vs, h1) →
  frame_of g h1 = Some f →
  (point f = InitialSuspend ∧ body FromStart (locals f) = Some (l, Returned))
  ∨ (point f = YieldSuspend ∧ body AfterYield (locals f) = Some (l, Returned)) →
  yields body FromStart args n = Some (vs, locals f)
  ∧ done g h1 = Ret (false, h1)
  ∧ mValue (promise f) = default dflt (last vs)
  ∧ ∃ h2, next g h1 = Ret (default dflt (last vs), h2)
      ∧ done g h2 = Ret (true, h2)
      ∧ frame_of g h2 = Some {| point := FinalSuspend; locals := l;
                                promise := promise f; code := body |}
      ∧ ∀ m ws h3, nexts m g h2 = Ret (ws, h3) → m = 0%nat ∧ h3 = h2.
Proof.
  intros (p & Hg & Hfresh & ->)%call_inv Hn Hf Hret.
  assert (point f ≠ FinalSuspend) as Hnf
    by (destruct Hret as [[Hpt _]|[Hpt _]]; by rewrite Hpt).
  pose proof Hf as (p' & Hg' & Hp)%frame_of_Some.
  assert (p' = p) as -> by congruence.
  set (f0 := {| point := InitialSuspend; code := body |}) in *.
  assert (yields (code f0) FromStart (locals f0) n = Some (vs, locals f)) as Hys.
  { apply (nexts_yields n g (<[p := f0]> h) p f0 FromStart vs h1 f);
      [done|apply lookup_insert_eq|by left|done..]. }
  simpl in Hys.
  destruct (nexts_at n g _ p _ vs h1 Hg (lookup_insert_eq _ _ _) Hn)
    as (f' & -> & Hcode & _ & Hval & _).
  rewrite insert_insert_eq in *.
  pose proof Hf as Hf'. rewrite (frame_of_insert _ _ _ _ Hg) in Hf'.
  injection Hf' as ->. simpl in Hval, Hcode.
  split_and!; [done| |done|].
  - by rewrite (done_at _ _ _ Hf), bool_decide_eq_false_2.
  - rewrite <- Hval, <- Hcode. apply next_returned; [done|].
    by rewrite Hcode.
Qed.

(** C3, amended.  The class declares no copy or move operation: copying a
    generator compiles and gives a second handle to the same frame, and a
    move is that copy, with the source left as it was.  For a generator
    that is not copied: its frame is at an address no frame had before,
    calls of [next] change no other frame, and the destructor removes the
    frame and nothing else, whether or not the producer has completed;
    destroying it once more is undefined. *)
Theorem Generator_owns_frame_unless_copied body args dflt h n g h0 vs h1 :
  call body args dflt h = Ret (g, h0) →
  nexts n g h0 = Ret (vs, h1) →
  Generator_copy g = Some (g, g)
  ∧ Generator_move g = Some (g, g)
  ∧ frame_of g h = None
  ∧ is_Some (frame_of g h1)
  ∧ (∀ q, mCoroHdl g ≠ Some q → h1 !! q = h !! q)
  ∧ Generator_dtor g h1 = Ret ((), h)
  ∧ Generator_dtor g h = Undef.
Proof.
  intros (p & Hg & Hfresh & ->)%call_inv Hn.
  destruct (nexts_at n g _ p _ vs h1 Hg (lookup_insert_eq _ _ _) Hn)
    as (f' & -> & _).
  rewrite insert_insert_eq.
  destruct g as [hdl]. simpl in Hg. subst hdl.
  split_and!; try done.
  - by rewrite frame_of_insert.
  - intros q Hq. apply lookup_insert_ne. simpl in Hq. congruence.
  - unfold Generator_dtor, destroy. simpl.
    by rewrite lookup_insert_eq, delete_insert_id.
  - unfold Generator_dtor, destroy. simpl. by rewrite Hfresh.
Qed.

End GeneratorFacts.

(** ** The producer [counter] *)

Lemma resume_counter_start a b v :
  a < b →
  resume (counter_frame InitialSuspend a b v) = Some (counter_frame YieldSuspend a b a).
Proof.
  intros Hab. unfold resume, run_body, counter_frame, counter_body, counter_loop.
  simpl. by rewrite (proj2 (Z.ltb_lt a b)).
Qed.

Lemma resume_counter_yield s e v :
  s + 1 < e → e ≤ INT_MAX →
  resume (counter_frame YieldSuspend s e v)
  = Some (counter_frame YieldSuspend (s + 1) e (s + 1)).
Proof.
  intros Hse He. unfold resume, run_body, counter_frame, counter_body, counter_loop,
    incr. simpl.
  rewrite (proj2 (Z.ltb_lt s INT_MAX)) by lia. simpl.
  by rewrite (proj2 (Z.ltb_lt (s + 1) e)).
Qed.

Lemma resume_counter_last s e v :
  s < e → e ≤ s + 1 → e ≤ INT_MAX →
  resume (counter_frame YieldSuspend s e v)
  = Some (counter_frame FinalSuspend (s + 1) e v).
Proof.
  intros Hse Hes He. unfold resume, run_body, counter_frame, counter_body,
    counter_loop, incr. simpl.
  rewrite (proj2 (Z.ltb_lt s INT_MAX)) by lia. simpl.
  by rewrite (proj2 (Z.ltb_ge (s + 1) e)) by lia.
Qed.


(** The pull loop on a [counter] suspended at [co_yield s]: the consumer is
    given [s+1], ..., [e-1] and then [e-1] once more. *)
Lemma pull_loop_counter_yield {A} (consume : A → Z → A) (k : nat) :
  ∀ s e acc (h : gmap addr (frame Z counter_locals)) p g fuel,
  mCoroHdl g = Some p → e = s + 1 + Z.of_nat k → e ≤ INT_MAX → (k + 2 ≤ fuel)%nat →
  pull_loop consume fuel g acc (<[p := counter_frame YieldSuspend s e s]> h)
  = Ret (foldl consume acc (seqZ (s + 1) (Z.of_nat k) ++ [e - 1]),
         <[p := counter_frame FinalSuspend e e (e - 1)]> h).
Proof.
  induction k as [|k IH]; intros s e acc h p g fuel Hg He Hmax Hfuel;
    (destruct fuel as [|fuel]; [lia|]); simpl.
  - destruct fuel as [|fuel]; [lia|].
    unfold bind at 1. rewrite (done_at g _ _ (frame_of_insert _ _ _ _ Hg)). simpl.
    unfold bind at 1.
    rewrite (next_at g _ p _ _ Hg (lookup_insert_eq _ _ _)
               (resume_counter_last s e s ltac:(lia) ltac:(lia) Hmax)).
    rewrite insert_insert_eq. simpl.
    unfold bind at 1. rewrite (done_at g _ _ (frame_of_insert _ _ _ _ Hg)). simpl.
    unfold ret. replace (s + 1) with e by lia. by replace (e - 1) with s by lia.
  - unfold bind at 1. rewrite (done_at g _ _ (frame_of_insert _ _ _ _ Hg)). simpl.
    unfold bind at 1.
    rewrite (next_at g _ p _ _ Hg (lookup_insert_eq _ _ _)
               (resume_counter_yield s e s ltac:(lia) Hmax)).
    rewrite insert_insert_eq. simpl.
    rewrite (IH (s + 1) e) by (done || lia).
    rewrite (seqZ_cons (s + 1)) by lia. simpl.
    replace (Z.pred (Z.of_nat (S k))) with (Z.of_nat k) by lia.
    by replace (Z.succ (s + 1)) with (s + 1 + 1) by lia.
Qed.

(** The pull loop on [counter(a, b)], [a < b]: the consumer is given
    [a], ..., [b-1] and then [b-1] once more; after that [done()] is true. *)
Lemma counter_pull_loop {A} (consume : A → Z → A) a b dflt h g h0 acc fuel :
  counter a b dflt h = Ret (g, h0) →
  a < b → b ≤ INT_MAX → (Z.to_nat (b - a) + 2 ≤ fuel)%nat →
  ∃ h1, pull_loop consume fuel g acc h0
        = Ret (foldl consume acc (seqZ a (b - a) ++ [b - 1]), h1)
      ∧ done g h1 = Ret (true, h1)
      ∧ frame_of g h1 = Some (counter_frame FinalSuspend b b (b - 1)).
Proof.
  intros (p & Hg & Hfresh & ->)%call_inv Hab Hb Hfuel.
  destruct fuel as [|fuel]; [lia|]. simpl.
  unfold bind at 1. rewrite (done_at g _ _ (frame_of_insert _ _ _ _ Hg)). simpl.
  unfold bind at 1.
  rewrite (next_at g _ p _ _ Hg (lookup_insert_eq _ _ _)
             (resume_counter_start a b dflt Hab)).
  rewrite insert_insert_eq. simpl.
  rewrite (pull_loop_counter_yield consume (Z.to_nat (b - a - 1)) a b) by (done || lia).
  exists (<[p := counter_frame FinalSuspend b b (b - 1)]> h).
  split_and!.
  - rewrite (seqZ_cons a) by lia. simpl.
    replace (Z.of_nat (Z.to_nat (b - a - 1))) with (Z.pred (b - a)) by lia.
    by replace (a + 1) with (Z.succ a) by lia.
  - by rewrite (done_at g _ _ (frame_of_insert _ _ _ _ Hg)).
  - by apply frame_of_insert.
Qed.

Lemma counter_pull_loop_witness :
  ∃ h1, pull_loop (λ vs v, vs ++ [v]) 6 {| mCoroHdl := Some 0%nat |} []
          (<[0%nat := counter_frame InitialSuspend 1 5 0]> ∅)
        = Ret ([1; 2; 3; 4; 4], h1)
      ∧ done {| mCoroHdl := Some 0%nat |} h1 = Ret (true, h1).
Proof.
  assert (counter 1 5 0 ∅
          = Ret ({| mCoroHdl := Some 0%nat |},
                 <[0%nat := counter_frame InitialSuspend 1 5 0]> ∅))
    as Hcall by reflexivity.
  destruct (counter_pull_loop (λ vs v, vs ++ [v]) 1 5 0 ∅ _ _ [] 6 Hcall)
    as (h1 & Hloop & Hdone & _); [lia|by vm_compute|simpl; lia|].
  exists h1. split; [exact Hloop|exact Hdone].
Defined.

(** ** The claims about [counter] and [main] *)

(** C1.  [main] writes [1 2 3 4 4 ]: the call of [next] that runs the
    producer to its end returns the value of the last [co_yield] again, and
    the loop prints it before it tests [done()].  Six turns of the loop are
    enough, and the frame is destroyed when [main] returns. *)
Theorem main_writes_last_value_twice (dflt : Z) (extra : nat) :
  main (6 + extra) dflt ∅ = Ret ((0, "1 2 3 4 4 "), ∅).
Proof. by vm_compute. Qed.

(** C4.  [counter(a, a)]: [done()] is false on the new generator; the first
    [next] returns what the promise was initialised with and leaves
    [done()] true; [next] can be called at most once, so no call returns a
    value of the empty range. *)
Theorem counter_empty_range a dflt h g h0 :
  counter a a dflt h = Ret (g, h0) →
  done g h0 = Ret (false, h0)
  ∧ ∃ h1, next g h0 = Ret (dflt, h1)
      ∧ done g h1 = Ret (true, h1)
      ∧ ∀ n vs h2, nexts n g h0 = Ret (vs, h2) →
          (n ≤ 1)%nat
          ∧ Forall (λ v, ¬ (a ≤ v < a)) vs
          ∧ (n = 1%nat → vs = [dflt] ∧ h2 = h1).
Proof.
  intros (p & Hg & Hfresh & ->)%call_inv.
  set (f0 := {| point := InitialSuspend |}) in *.
  assert (frame_of g (<[p := f0]> h) = Some f0) as H0 by by apply frame_of_insert.
  destruct (next_returned g _ f0 {| start := a; end_ := a |} H0)
    as (h1 & Hnext & Hd1 & _ & Hstop).
  { left. split; [done|]. simpl. unfold counter_loop. simpl.
    by rewrite Z.ltb_irrefl. }
  simpl in Hnext. split; [by rewrite (done_at _ _ _ H0)|].
  exists h1. split_and!; [done..|].
  intros n vs h2 Hn. split_and!.
  - destruct n as [|n]; [lia|]. simpl in Hn. unfold bind at 1 in Hn.
    rewrite Hnext in Hn. unfold bind, ret in Hn.
    destruct (nexts n g h1) as [[ws h3]| |] eqn:Hns; [|done..].
    destruct (Hstop n ws h3 Hns) as [-> _]. lia.
  - apply Forall_forall. intros v _. lia.
  - intros ->. simpl in Hn. unfold bind at 1 in Hn. rewrite Hnext in Hn.
    unfold bind, ret in Hn. by injection Hn as <- <-.
Qed.

Lemma counter_empty_range_witness :
  ∃ h1, next {| mCoroHdl := Some 0%nat |}
          (<[0%nat := counter_frame InitialSuspend 7 7 99]> ∅)
        = Ret (99, h1)
      ∧ done {| mCoroHdl := Some 0%nat |} h1 = Ret (true, h1).
Proof.
  destruct (counter_empty_range 7 99 ∅ _ _ eq_refl) as (_ & h1 & Hnext & Hdone & _).
  exists h1. split; [exact Hnext|exact Hdone].
Defined.

(** C3, as stated, fails: initialising a second generator from
    [std::move(g)] compiles, leaves the handle of [g] non-null and equal to
    the new one, and destroying both destroys the frame twice. *)
Lemma Generator_move_shares_frame :
  ∃ g h0 g2 src,
    counter 1 5 0 ∅ = Ret (g, h0)
    ∧ Generator_move g = Some (g2, src)
    ∧ mCoroHdl src ≠ None
    ∧ mCoroHdl g2 = mCoroHdl src
    ∧ bind (Generator_dtor g2) (λ _, Generator_dtor src) h0 = Undef.
Proof.
  eexists _, _, _, _. split_and!; [reflexivity|reflexivity|done|done|by vm_compute].
Qed.

Lemma Generator_owns_frame_unless_copied_witness :
  Generator_dtor {| mCoroHdl := Some 0%nat |}
    (<[0%nat := counter_frame YieldSuspend 2 5 2]> ∅)
  = Ret ((), ∅).
Proof.
  pose (g := {| mCoroHdl := Some 0%nat |}).
  assert (counter 1 5 0 ∅ = Ret (g, <[0%nat := counter_frame InitialSuspend 1 5 0]> ∅))
    as Hcall by reflexivity.
  assert (nexts 2 g (<[0%nat := counter_frame InitialSuspend 1 5 0]> ∅)
          = Ret ([1; 2], <[0%nat := counter_frame YieldSuspend 2 5 2]> ∅))
    as Hnexts by reflexivity.
  exact (proj1 (proj2 (proj2 (proj2 (proj2 (proj2
    (Generator_owns_frame_unless_copied _ _ _ _ _ _ _ _ _ Hcall Hnexts))))))).
Defined.

Lemma generator_state_machine_witness :
  counter 1 5 0 ∅
  = Ret ({| mCoroHdl := Some 0%nat |}, <[0%nat := counter_frame InitialSuspend 1 5 0]> ∅)
  ∧ done {| mCoroHdl := Some 0%nat |} (<[0%nat := counter_frame InitialSuspend 1 5 0]> ∅)
    = Ret (false, <[0%nat := counter_frame InitialSuspend 1 5 0]> ∅).
Proof.
  pose (g := {| mCoroHdl := Some 0%nat |}).
  assert (counter 1 5 0 ∅ = Ret (g, <[0%nat := counter_frame InitialSuspend 1 5 0]> ∅))
    as Hcall by reflexivity.
  assert (nexts 2 g (<[0%nat := counter_frame InitialSuspend 1 5 0]> ∅)
          = Ret ([1; 2], <[0%nat := counter_frame YieldSuspend 2 5 2]> ∅))
    as Hnexts by reflexivity.
  split; [exact Hcall|].
  exact (proj1 (proj2 (generator_state_machine _ _ _ _ _ _ _ _ _ Hcall Hnexts))).
Defined.

Lemma next_without_yield_returns_stored_witness :
  nexts 2 {| mCoroHdl := Some 0%nat |}
    (<[0%nat := counter_frame InitialSuspend 1 3 0]> ∅)
  = Ret ([1; 2], <[0%nat := counter_frame YieldSuspend 2 3 2]> ∅)
  ∧ yields counter_body FromStart {| start := 1; end_ := 3 |} 2
    = Some ([1; 2], {| start := 2; end_ := 3 |})
  ∧ done {| mCoroHdl := Some 0%nat |} (<[0%nat := counter_frame YieldSuspend 2 3 2]> ∅)
    = Ret (false, <[0%nat := counter_frame YieldSuspend 2 3 2]> ∅)
  ∧ ∃ h2, next {| mCoroHdl := Some 0%nat |}
            (<[0%nat := counter_frame YieldSuspend 2 3 2]> ∅)
          = Ret (2, h2)
        ∧ done {| mCoroHdl := Some 0%nat |} h2 = Ret (true, h2).
Proof.
  pose (g := {| mCoroHdl := Some 0%nat |}).
  pose (h1 := <[0%nat := counter_frame YieldSuspend 2 3 2]>
                (∅ : gmap addr (frame Z counter_locals))).
  assert (counter 1 3 0 ∅ = Ret (g, <[0%nat := counter_frame InitialSuspend 1 3 0]> ∅))
    as Hcall by reflexivity.
  assert (nexts 2 g (<[0%nat := counter_frame InitialSuspend 1 3 0]> ∅)
          = Ret ([1; 2], h1)) as Hnexts by reflexivity.
  assert (frame_of g h1 = Some (counter_frame YieldSuspend 2 3 2)) as Hf1
    by reflexivity.
  destruct (next_without_yield_returns_stored _ _ _ _ _ _ _ _ _ _
              {| start := 3; end_ := 3 |} Hcall Hnexts Hf1)
    as (Hys & Hd0 & _ & h2 & Hnext & Hdone & _).
  { right. split; reflexivity. }
  split; [exact Hnexts|]. split; [exact Hys|]. split; [exact Hd0|].
  exists h2. split; [exact Hnext|exact Hdone].
Defined.

(** ** More on the handle, for every producer *)

Section HandleFacts.
Context {T L : Type}.
Implicit Types (h : gmap addr (frame T L)) (f : frame T L) (g : Generator).
Implicit Types (body : producer T L).

Lemma nexts_app k m g h :
  nexts (k + m) g h
  = match nexts k g h with
    | Ret (vs, h1) =>
        match nexts m g h1 with
        | Ret (ws, h2) => Ret (vs ++ ws, h2)
        | Undef => Undef
        | NoFuel => NoFuel
        end
    | Undef => Undef
    | NoFuel => NoFuel
    end.
Proof.
  revert h. induction k as [|k IH]; intros h; simpl.
  - unfold ret. by destruct (nexts m g h) as [[ws h2]| |].
  - unfold bind at 1 3. destruct (next g h) as [[v h1]| |]; [|done..].
    unfold bind, ret. rewrite IH.
    destruct (nexts k g h1) as [[vs h2]| |]; [|done..].
    by destruct (nexts m g h2) as [[ws h3]| |].
Qed.

(** What [n] calls of [next] return depends on the frame of the handle
    only. *)
Lemma nexts_local n : ∀ g p f h h' vs h1,
  mCoroHdl g = Some p → h !! p = Some f → h' !! p = Some f →
  nexts n g h = Ret (vs, h1) →
  ∃ f', h1 = <[p := f']> h ∧ nexts n g h' = Ret (vs, <[p := f']> h').
Proof.
  induction n as [|n IH]; intros g p f h h' vs h1 Hg Hp Hp'; simpl.
  - intros [= <- <-]. exists f. by rewrite !insert_id.
  - unfold bind at 1 3. destruct (next g h) as [[v h2]| |] eqn:Hn; [|done..].
    apply next_inv in Hn as (p' & f0 & f1 & Hg' & Hp0 & Hr & -> & ->).
    assert (p' = p) as -> by congruence. assert (f0 = f) as -> by congruence.
    rewrite (next_at g h' p f f1 Hg Hp' Hr).
    unfold bind, ret.
    destruct (nexts n g (<[p:=f1]> h)) as [[ws h3]| |] eqn:Hns; [|done..].
    intros [= <- <-].
    destruct (IH g p f1 _ (<[p:=f1]> h') ws h3 Hg
                (lookup_insert_eq _ _ _) (lookup_insert_eq _ _ _) Hns)
      as (f' & -> & ->).
    exists f'. by rewrite !insert_insert_eq.
Qed.

(** What the pull loop gathers, from any state of the frame. *)
Lemma pull_loop_values {A} (consume : A → T → A) fuel :
  ∀ g h p f acc acc' h',
  mCoroHdl g = Some p → h !! p = Some f →
  pull_loop consume fuel g acc h = Ret (acc', h') →
  ∃ vs, acc' = foldl consume acc vs
      ∧ nexts (length vs) g h = Ret (vs, h')
      ∧ done g h' = Ret (true, h')
      ∧ (point f = FinalSuspend → vs = [])
      ∧ (point f ≠ FinalSuspend →
         ∃ ws, vs = ws ++ [default (mValue (promise f)) (last ws)]).
Proof.
  induction fuel as [|fuel IH]; intros g h p f acc acc' h' Hg Hp; [done|]. simpl.
  assert (frame_of g h = Some f) as Hf by (apply frame_of_Some; eauto).
  unfold bind at 1. rewrite (done_at g h f Hf).
  destruct (bool_decide (point f = FinalSuspend)) eqn:Hd.
  - intros [= <- <-]. exists []. apply bool_decide_eq_true in Hd.
    split_and!; [done..| |done|done]. by rewrite (done_at g h f Hf), bool_decide_eq_true_2.
  - apply bool_decide_eq_false in Hd.
    unfold bind at 1. destruct (next g h) as [[v h1]| |] eqn:Hn; [|done..].
    pose proof Hn as (p' & f0 & f1 & Hg' & Hp0 & Hr & -> & ->)%next_inv.
    assert (p' = p) as -> by congruence. assert (f0 = f) as -> by congruence.
    intros Hloop.
    destruct (IH g _ p f1 _ acc' h' Hg (lookup_insert_eq _ _ _) Hloop)
      as (vs & -> & Hns & Hdone & Hfin & Hnot).
    exists (mValue (promise f1) :: vs). split_and!; [done| |done|done|].
    + simpl. unfold bind at 1. rewrite Hn. unfold bind, ret. by rewrite Hns.
    + intros _. destruct (resume_inv _ _ Hr) as (_ & _ & [Hy|[Hy Hpr]]).
      * destruct Hnot as [ws ->]; [by rewrite Hy|].
        exists (mValue (promise f1) :: ws). simpl. do 2 f_equal.
        by destruct ws as [|w ws] using rev_ind;
          [|rewrite app_comm_cons, !last_snoc].
      * rewrite (Hfin Hy). exists []. simpl. by rewrite Hpr.
Qed.

(** The pull loop on a new generator, when it ends: the consumer was given
    the values of the calls of [next] in their order, at least one of them,
    and the last one repeats the one before it, or is the initial content of
    the promise when it is the only one; [done()] is true afterwards. *)
Theorem pull_loop_repeats_last {A} (consume : A → T → A)
    body args dflt h g h0 fuel acc acc' h1 :
  call body args dflt h = Ret (g, h0) →
  pull_loop consume fuel g acc h0 = Ret (acc', h1) →
  ∃ ws, acc' = foldl consume acc (ws ++ [default dflt (last ws)])
      ∧ nexts (S (length ws)) g h0 = Ret (ws ++ [default dflt (last ws)], h1)
      ∧ done g h1 = Ret (true, h1).
Proof.
  intros (p & Hg & Hfresh & ->)%call_inv Hloop.
  destruct (pull_loop_values consume fuel g _ p _ acc acc' h1 Hg
              (lookup_insert_eq _ _ _) Hloop)
    as (vs & -> & Hns & Hdone & _ & Hnot).
  destruct Hnot as [ws ->]; [done|]. simpl in *.
  exists ws. split_and!; [done| |done].
  by rewrite length_app, Nat.add_1_r in Hns.
Qed.

(** Two generators: they have different frames, the calls of [next] on the
    first return what they return without the second, and neither these
    calls nor the destruction of the first change the frame of the
    second. *)
Theorem generators_do_not_interfere
    body1 args1 dflt1 body2 args2 dflt2 h g1 h1 g2 h2 n vs h3 :
  call body1 args1 dflt1 h = Ret (g1, h1) →
  call body2 args2 dflt2 h1 = Ret (g2, h2) →
  nexts n g1 h2 = Ret (vs, h3) →
  mCoroHdl g1 ≠ mCoroHdl g2
  ∧ (∃ h3', nexts n g1 h1 = Ret (vs, h3'))
  ∧ frame_of g2 h3 = frame_of g2 h2
  ∧ ∃ h4, Generator_dtor g1 h3 = Ret ((), h4)
      ∧ frame_of g1 h4 = None
      ∧ frame_of g2 h4 = frame_of g2 h2.
Proof.
  intros (p1 & Hg1 & Hfresh1 & ->)%call_inv (p2 & Hg2 & Hfresh2 & ->)%call_inv Hn.
  assert (p1 ≠ p2) as Hne.
  { intros ->. by rewrite lookup_insert_eq in Hfresh2. }
  set (f1 := {| point := InitialSuspend; code := body1 |}) in *.
  set (f2 := {| point := InitialSuspend; code := body2 |}) in *.
  assert ((<[p2:=f2]> (<[p1:=f1]> h)) !! p1 = Some f1) as Hp1
    by by rewrite lookup_insert_ne, lookup_insert_eq.
  destruct (nexts_local n g1 p1 f1 _ (<[p1:=f1]> h) vs h3 Hg1 Hp1
              (lookup_insert_eq _ _ _) Hn) as (f' & -> & Halone).
  unfold frame_of. rewrite Hg1, Hg2. simpl.
  split_and!; [congruence|eauto|by rewrite lookup_insert_ne|].
  eexists. unfold Generator_dtor, destroy. rewrite Hg1, lookup_insert_eq.
  split_and!; [done|apply lookup_delete_eq|].
  by rewrite lookup_delete_ne, lookup_insert_ne.
Qed.

(** After its destructor has run, a generator cannot be used: [done],
    [next] and a second destruction are undefined.  The destructor of a
    null handle does nothing. *)
Theorem destroyed_generator_is_unusable body args dflt h n g h0 vs h1 h2 :
  call body args dflt h = Ret (g, h0) →
  nexts n g h0 = Ret (vs, h1) →
  Generator_dtor g h1 = Ret ((), h2) →
  done g h2 = Undef
  ∧ next g h2 = Undef
  ∧ Generator_dtor g h2 = Undef
  ∧ Generator_dtor {| mCoroHdl := None |} h2 = Ret ((), h2).
Proof.
  intros (p & Hg & Hfresh & ->)%call_inv Hn.
  destruct (nexts_at n g _ p _ vs h1 Hg (lookup_insert_eq _ _ _) Hn)
    as (f' & -> & _).
  rewrite insert_insert_eq.
  unfold Generator_dtor, destroy, done, next, bind, deref. rewrite Hg.
  rewrite lookup_insert_eq. intros [= <-].
  by rewrite lookup_delete_eq.
Qed.

End HandleFacts.

Lemma pull_loop_repeats_last_witness :
  ∃ ws h1, nexts (S (length ws)) {| mCoroHdl := Some 0%nat |}
             (<[0%nat := counter_frame InitialSuspend 1 3 0]> ∅)
           = Ret (ws ++ [default 0 (last ws)], h1)
         ∧ done {| mCoroHdl := Some 0%nat |} h1 = Ret (true, h1).
Proof.
  pose (g := {| mCoroHdl := Some 0%nat |}).
  assert (counter 1 3 0 ∅ = Ret (g, <[0%nat := counter_frame InitialSuspend 1 3 0]> ∅))
    as Hcall by reflexivity.
  assert (pull_loop (λ vs v, vs ++ [v]) 4 g []
            (<[0%nat := counter_frame InitialSuspend 1 3 0]> ∅)
          = Ret ([1; 2; 2], <[0%nat := counter_frame FinalSuspend 3 3 2]> ∅))
    as Hloop by reflexivity.
  destruct (pull_loop_repeats_last _ _ _ _ _ _ _ _ _ _ _ Hcall Hloop)
    as (ws & _ & Hns & Hdone).
  exists ws. eexists. split; [exact Hns|exact Hdone].
Defined.

Lemma generators_do_not_interfere_witness :
  frame_of {| mCoroHdl := Some 1%nat |}
    (<[0%nat := counter_frame YieldSuspend 2 5 2]>
       (<[1%nat := counter_frame InitialSuspend 7 9 0]> ∅))
  = frame_of {| mCoroHdl := Some 1%nat |}
      (<[1%nat := counter_frame InitialSuspend 7 9 0]>
         (<[0%nat := counter_frame InitialSuspend 1 5 0]> ∅)).
Proof.
  pose (g1 := {| mCoroHdl := Some 0%nat |}).
  pose (g2 := {| mCoroHdl := Some 1%nat |}).
  pose (h1 := <[0%nat := counter_frame InitialSuspend 1 5 0]>
                (∅ : gmap addr (frame Z counter_locals))).
  pose (h2 := <[1%nat := counter_frame InitialSuspend 7 9 0]> h1).
  pose (h3 := <[0%nat := counter_frame YieldSuspend 2 5 2]>
                (<[1%nat := counter_frame InitialSuspend 7 9 0]>
                   (∅ : gmap addr (frame Z counter_locals)))).
  assert (counter 1 5 0 ∅ = Ret (g1, h1)) as Hc1 by reflexivity.
  assert (counter 7 9 0 h1 = Ret (g2, h2)) as Hc2 by reflexivity.
  assert (nexts 2 g1 h2 = Ret ([1; 2], h3)) as Hn by reflexivity.
  exact (proj1 (proj2 (proj2
    (generators_do_not_interfere _ _ _ _ _ _ _ _ _ _ _ _ _ _ Hc1 Hc2 Hn)))).
Defined.

Lemma destroyed_generator_is_unusable_witness :
  next (T:=Z) (L:=counter_locals) {| mCoroHdl := Some 0%nat |} ∅ = Undef.
Proof.
  pose (g := {| mCoroHdl := Some 0%nat |}).
  assert (counter 1 5 0 ∅ = Ret (g, <[0%nat := counter_frame InitialSuspend 1 5 0]> ∅))
    as Hcall by reflexivity.
  assert (nexts 2 g (<[0%nat := counter_frame InitialSuspend 1 5 0]> ∅)
          = Ret ([1; 2], <[0%nat := counter_frame YieldSuspend 2 5 2]> ∅))
    as Hnexts by reflexivity.
  assert (Generator_dtor g (<[0%nat := counter_frame YieldSuspend 2 5 2]> ∅)
          = Ret ((), ∅)) as Hdtor by reflexivity.
  exact (proj1 (proj2
    (destroyed_generator_is_unusable _ _ _ _ _ _ _ _ _ _ Hcall Hnexts Hdtor))).
Defined.

(** ** More on [counter] *)

Lemma seqZ_to_nat a n : seqZ a (Z.of_nat (Z.to_nat n)) = seqZ a n.
Proof.
  destruct (decide (0 ≤ n)); [by rewrite Z2Nat.id|].
  rewrite (seqZ_nil a n) by lia.
  replace (Z.to_nat n) with 0%nat by lia. done.
Qed.

Lemma nexts_counter_yield (k : nat) :
  ∀ s e (h : gmap addr (frame Z counter_locals)) p g,
  mCoroHdl g = Some p → s + Z.of_nat k < e → e ≤ INT_MAX →
  nexts k g (<[p := counter_frame YieldSuspend s e s]> h)
  = Ret (seqZ (s + 1) (Z.of_nat k),
         <[p := counter_frame YieldSuspend (s + Z.of_nat k) e (s + Z.of_nat k)]> h).
Proof.
  induction k as [|k IH]; intros s e h p g Hg Hse He; simpl.
  - unfold ret. by rewrite Z.add_0_r.
  - unfold bind at 1.
    rewrite (next_at g _ p _ _ Hg (lookup_insert_eq _ _ _)
               (resume_counter_yield s e s ltac:(lia) He)).
    rewrite insert_insert_eq. unfold bind, ret.
    rewrite (IH (s + 1) e) by (done || lia).
    rewrite (seqZ_cons (s + 1)) by lia.
    replace (Z.pred (Z.of_nat (S k))) with (Z.of_nat k) by lia.
    replace (Z.succ (s + 1)) with (s + 1 + 1) by lia.
    by replace (s + 1 + Z.of_nat k) with (s + Z.of_nat (S k)) by lia.
Qed.

Lemma counter_nexts_prefix a b dflt (h : gmap addr (frame Z counter_locals)) p g k :
  mCoroHdl g = Some p → b ≤ INT_MAX → (k ≤ Z.to_nat (b - a))%nat →
  nexts k g (<[p := counter_frame InitialSuspend a b dflt]> h)
  = Ret (seqZ a (Z.of_nat k), <[p := counter_after a b dflt k]> h).
Proof.
  intros Hg Hb Hk. destruct k as [|k]; [done|]. simpl.
  unfold bind at 1.
  rewrite (next_at g _ p _ _ Hg (lookup_insert_eq _ _ _)
             (resume_counter_start a b dflt ltac:(lia))).
  rewrite insert_insert_eq. unfold bind, ret.
  rewrite (nexts_counter_yield k a b) by (done || lia).
  rewrite (seqZ_cons a) by lia.
  replace (Z.pred (Z.of_nat (S k))) with (Z.of_nat k) by lia.
  by replace (Z.succ a) with (a + 1) by lia.
Qed.

Lemma counter_after_last a b dflt :
  b ≤ INT_MAX →
  point (counter_after a b dflt (Z.to_nat (b - a))) ≠ FinalSuspend
  ∧ mValue (promise (counter_after a b dflt (Z.to_nat (b - a))))
    = default dflt (last (seqZ a (b - a)))
  ∧ ∃ l, resume (counter_after a b dflt (Z.to_nat (b - a)))
         = Some {| point := FinalSuspend; locals := l;
                   promise := promise (counter_after a b dflt (Z.to_nat (b - a)));
                   code := counter_body |}.
Proof.
  intros Hb. destruct (Z.to_nat (b - a)) as [|j] eqn:Hlen; simpl.
  - split_and!; [done|by rewrite seqZ_nil by lia|].
    exists {| start := a; end_ := b |}.
    unfold resume, run_body, counter_frame, counter_body, counter_loop. simpl.
    by rewrite (proj2 (Z.ltb_ge a b)) by lia.
  - split_and!; [done| |].
    + rewrite <- (seqZ_to_nat a (b - a)), Hlen, seqZ_S. by rewrite last_snoc.
    + eexists. by apply resume_counter_last; lia.
Qed.

(** [counter(a, b)] allows exactly [max(b - a, 0) + 1] calls of [next]: the
    first [b - a] return [a], ..., [b - 1] and leave [done()] false; one more
    returns the last of them again (the initial content of the promise when
    there is none) and leaves [done()] true; any further call is
    undefined.  No call overflows [start]. *)
Theorem counter_nexts a b dflt h g h0 (k : nat) :
  counter a b dflt h = Ret (g, h0) → b ≤ INT_MAX →
  ((k ≤ Z.to_nat (b - a))%nat →
     ∃ h1, nexts k g h0 = Ret (seqZ a (Z.of_nat k), h1)
         ∧ done g h1 = Ret (false, h1))
  ∧ (k = S (Z.to_nat (b - a)) →
     ∃ h1, nexts k g h0
           = Ret (seqZ a (b - a) ++ [default dflt (last (seqZ a (b - a)))], h1)
         ∧ done g h1 = Ret (true, h1))
  ∧ ((S (Z.to_nat (b - a)) < k)%nat → nexts k g h0 = Undef).
Proof.
  intros (p & Hg & Hfresh & ->)%call_inv Hb.
  change {| point := InitialSuspend; locals := _; promise := _; code := _ |}
    with (counter_frame InitialSuspend a b dflt).
  pose proof (counter_nexts_prefix a b dflt h p g (Z.to_nat (b - a)) Hg Hb (le_n _))
    as Hpre.
  destruct (counter_after_last a b dflt Hb) as (Hpt & Hval & l & Hr).
  set (fl := counter_after a b dflt (Z.to_nat (b - a))) in *.
  pose proof (next_at g (<[p := fl]> h) p fl _ Hg (lookup_insert_eq _ _ _) Hr) as Hlast.
  rewrite insert_insert_eq in Hlast. simpl in Hlast.
  set (ff := {| point := FinalSuspend |}) in *.
  assert (frame_of g (<[p := ff]> h) = Some ff) as Hff by by apply frame_of_insert.
  assert (nexts (S (Z.to_nat (b - a))) g (<[p := counter_frame InitialSuspend a b dflt]> h)
          = Ret (seqZ a (b - a) ++ [default dflt (last (seqZ a (b - a)))],
                 <[p := ff]> h)) as Hall.
  { rewrite <- Nat.add_1_r, nexts_app, Hpre. simpl.
    unfold bind at 1. rewrite Hlast. unfold bind, ret.
    by rewrite seqZ_to_nat, Hval. }
  split_and!.
  - intros Hk. rewrite (counter_nexts_prefix a b dflt h p g k Hg Hb Hk).
    eexists. split; [done|].
    rewrite (done_at g _ _ (frame_of_insert _ _ _ _ Hg)).
    by destruct k.
  - intros ->. eexists. split; [exact Hall|].
    by rewrite (done_at g _ _ Hff).
  - intros Hk.
    replace k with (S (Z.to_nat (b - a)) + S (k - S (S (Z.to_nat (b - a)))))%nat by lia.
    rewrite nexts_app, Hall. simpl.
    unfold bind at 1. by rewrite (next_at_final g _ ff Hff).
Qed.

Lemma counter_nexts_witness :
  ∃ h1, nexts 3 {| mCoroHdl := Some 0%nat |}
          (<[0%nat := counter_frame InitialSuspend 1 5 0]> ∅)
        = Ret ([1; 2; 3], h1)
      ∧ done {| mCoroHdl := Some 0%nat |} h1 = Ret (false, h1).
Proof.
  assert (counter 1 5 0 ∅
          = Ret ({| mCoroHdl := Some 0%nat |},
                 <[0%nat := counter_frame InitialSuspend 1 5 0]> ∅))
    as Hcall by reflexivity.
  assert (5 ≤ INT_MAX) as Hb by (by vm_compute).
  refine (proj1 (counter_nexts 1 5 0 ∅ _ _ 3 Hcall Hb) _).
  simpl. lia.
Defined.

(** The pull loop on [counter(a, b)] with [b ≤ a], an empty or reversed
    range: the consumer is given one value, the initial content of the
    promise, and [done()] is true afterwards. *)
Theorem counter_empty_pull_loop {A} (consume : A → Z → A) a b dflt h g h0 acc fuel :
  counter a b dflt h = Ret (g, h0) →
  b ≤ a → (2 ≤ fuel)%nat →
  ∃ h1, pull_loop consume fuel g acc h0 = Ret (consume acc dflt, h1)
      ∧ done g h1 = Ret (true, h1).
Proof.
  intros (p & Hg & Hfresh & ->)%call_inv Hba Hfuel.
  destruct fuel as [|[|fuel]]; [lia..|].
  set (f0 := {| point := InitialSuspend |}) in *.
  assert (frame_of g (<[p := f0]> h) = Some f0) as H0 by by apply frame_of_insert.
  destruct (next_returned g _ f0 {| start := a; end_ := b |} H0)
    as (h1 & Hnext & Hd1 & _).
  { left. split; [done|]. simpl. unfold counter_loop. simpl.
    by rewrite (proj2 (Z.ltb_ge a b)). }
  exists h1. split; [|done]. simpl.
  unfold bind at 1. rewrite (done_at _ _ _ H0). simpl.
  unfold bind at 1. rewrite Hnext. simpl.
  unfold bind at 1. by rewrite Hd1.
Qed.

Lemma counter_empty_pull_loop_witness :
  ∃ h1, pull_loop (λ vs v, vs ++ [v]) 2 {| mCoroHdl := Some 0%nat |} []
          (<[0%nat := counter_frame InitialSuspend 9 7 42]> ∅)
        = Ret ([42], h1)
      ∧ done {| mCoroHdl := Some 0%nat |} h1 = Ret (true, h1).
Proof.
  assert (counter 9 7 42 ∅
          = Ret ({| mCoroHdl := Some 0%nat |},
                 <[0%nat := counter_frame InitialSuspend 9 7 42]> ∅))
    as Hcall by reflexivity.
  refine (counter_empty_pull_loop (λ vs v, vs ++ [v]) 9 7 42 ∅ _ _ [] 2 Hcall _ _); lia.
Defined.

End CoroutinesFacts.
